(** * Bellman-Ford negative-cycle detection: a shallow embedding

    Embedding of [src/pathFindingBase.h] and of the class
    [BellmanFordAlgorithm] of [src/main.cpp].

    Numbers.  A C++ [double] is modelled as an exact rational ([Q]), so
    rounding, overflow and NaN are outside the model; [==] on doubles is
    [Qeq_bool] and [>] is [Qgtb].  The graphs of the driver carry the decimal
    weights of the source; every further graph uses integers or dyadic
    fractions of small magnitude, on which IEEE double arithmetic is exact,
    so that its evaluation is also what the compiled program computes.  The
    conversion [double -> int] of
    [ContainsNegativeCycles_Sedgewick] is truncation toward zero ([Qtrunc]).

    Vectors.  [std::vector] is a list; [v[i]] is [nth i v d].  Indexing
    outside the bounds is undefined behaviour in C++: the strategies are
    only meaningful on a well-formed graph ([wf_graph]) and a source below
    the node count, and path reconstruction reports an out-of-bounds read
    as [Undefined]. *)

From Stdlib Require Import String List ZArith QArith Qround Bool Lia Lqa.
Import ListNotations.

Local Open Scope Q_scope.

(** ** pathFindingBase.h *)

Definition INF : Q := 1000000.
Definition NEG_INF : Q := -1000000.

Record GraphNode := { Name : string }.

Record Graph := {
  Matrix : list (list Q);
  Edges : list (list (Z * Z));
  Nodes : list GraphNode
}.

Definition Clear (g : Graph) : Graph :=
  {| Matrix := []; Edges := []; Nodes := [] |}.

(** ** Doubles and vectors *)

(** [a > b] on doubles. *)
Definition Qgtb (a b : Q) : bool := negb (Qle_bool a b).

(** [(int) x]: truncation toward zero (a value outside the range of [int]
    is undefined in C++ and is not modelled). *)
Definition Qtrunc (x : Q) : Z :=
  if Qle_bool 0 x then Qfloor x else Qceiling x.

(** [v[i] = x] for [i] inside the bounds (no effect outside them). *)
Fixpoint vset {A : Type} (i : nat) (x : A) (v : list A) : list A :=
  match v, i with
  | [], _ => []
  | _ :: t, O => x :: t
  | h :: t, S j => h :: vset j x t
  end.

(** [v.resize(n, x)]: keeps the first [n] elements, pads with [x]. *)
Definition resize {A : Type} (n : nat) (x : A) (v : list A) : list A :=
  firstn n v ++ repeat x (n - length v).

(** [graph.Matrix[from][to]]. *)
Definition weight (g : Graph) (from to : nat) : Q :=
  nth to (nth from (Matrix g) []) 0.

(** The matrix is square and as large as the node sequence. *)
Definition wf_graph (g : Graph) : Prop :=
  length (Matrix g) = length (Nodes g) /\
  Forall (fun row => length row = length (Nodes g)) (Matrix g).

(** The iteration order of
    [for (from = 0; from < n; from++) for (to = 0; to < n; to++)]. *)
Definition pairs (n : nat) : list (nat * nat) :=
  list_prod (seq 0 n) (seq 0 n).

(** ** class BellmanFordAlgorithm *)

Record BellmanFordAlgorithm := {
  _shortestPath : list Q;
  _previousVertex : list Z;
  _solved : bool
}.

(** A freshly constructed engine: empty vectors, [_solved = false]. *)
Definition fresh : BellmanFordAlgorithm :=
  {| _shortestPath := []; _previousVertex := []; _solved := false |}.

Definition dist (e : BellmanFordAlgorithm) (v : nat) : Q :=
  nth v (_shortestPath e) 0.

Definition prev (e : BellmanFordAlgorithm) (v : nat) : Z :=
  nth v (_previousVertex e) 0%Z.

(** [_shortestPath[to] = d; _previousVertex[to] = p;] *)
Definition assign (e : BellmanFordAlgorithm) (to : nat) (d : Q) (p : Z)
  : BellmanFordAlgorithm :=
  {| _shortestPath := vset to d (_shortestPath e);
     _previousVertex := vset to p (_previousVertex e);
     _solved := _solved e |}.

Definition set_solved (e : BellmanFordAlgorithm) : BellmanFordAlgorithm :=
  {| _shortestPath := _shortestPath e;
     _previousVertex := _previousVertex e;
     _solved := true |}.

(** The common prologue of the four strategies:
    [resize(n, INF); resize(n, -1); _shortestPath[start] = 0;] *)
Definition init (e : BellmanFordAlgorithm) (n start : nat)
  : BellmanFordAlgorithm :=
  {| _shortestPath := vset start 0 (resize n INF (_shortestPath e));
     _previousVertex := resize n (-1)%Z (_previousVertex e);
     _solved := _solved e |}.

(** *** ContainsNegativeCycles (strategy A), main.cpp lines 31-81 *)

(** The relaxation test of strategy A; a missing edge takes part with the
    weight [INF]. *)
Definition improves (g : Graph) (e : BellmanFordAlgorithm) (from to : nat)
  : bool :=
  Qgtb (dist e to) (dist e from + weight g from to).

Definition step_A (g : Graph) (s : BellmanFordAlgorithm * bool)
  (p : nat * nat) : BellmanFordAlgorithm * bool :=
  let (from, to) := p in
  if improves g (fst s) from to
  then (assign (fst s) to (dist (fst s) from + weight g from to)
          (Z.of_nat from), true)
  else s.

(** One pass of the loop body, started with [updated = false]. *)
Definition pass_A (g : Graph) (n : nat) (e : BellmanFordAlgorithm)
  : BellmanFordAlgorithm * bool :=
  fold_left (step_A g) (pairs n) (e, false).

(** [for (k = 0; k < n - 1; k++) { ...; if (!updated) break; }], with [k]
    passes left; the result carries the final value of [updated]. *)
Fixpoint relax_A (g : Graph) (n k : nat) (e : BellmanFordAlgorithm)
  (updated : bool) : BellmanFordAlgorithm * bool :=
  match k with
  | O => (e, updated)
  | S k' =>
      let (e', u) := pass_A g n e in
      if u then relax_A g n k' e' true else (e', false)
  end.

(** The verification pass: does any ordered pair still admit improvement? *)
Definition still_improves (g : Graph) (n : nat) (e : BellmanFordAlgorithm)
  : bool :=
  existsb (fun p => improves g e (fst p) (snd p)) (pairs n).

Definition ContainsNegativeCycles (e : BellmanFordAlgorithm) (g : Graph)
  (start : nat) : BellmanFordAlgorithm * bool :=
  let n := length (Nodes g) in
  let (e1, updated) := relax_A g n (n - 1) (init e n start) false in
  if updated && still_improves g n e1 then (e1, true)
  else (set_solved e1, false).

(** *** ContainsNegativeCycles_Sedgewick (strategy B), lines 86-130 *)

(** The guards of the loop body, then the relaxation test through
    [int new_distance]. *)
Definition new_distance_B (g : Graph) (e : BellmanFordAlgorithm)
  (from to : nat) : Z :=
  Qtrunc (dist e from + weight g from to).

Definition improves_B (g : Graph) (start : nat) (e : BellmanFordAlgorithm)
  (from to : nat) : bool :=
  if negb (from =? start)%nat && (prev e from =? -1)%Z then false
  else if Qeq_bool (weight g from to) INF then false
  else Qgtb (dist e to) (inject_Z (new_distance_B g e from to)).

Definition step_B (g : Graph) (start : nat) (s : BellmanFordAlgorithm * bool)
  (p : nat * nat) : BellmanFordAlgorithm * bool :=
  let (from, to) := p in
  if improves_B g start (fst s) from to
  then (assign (fst s) to (inject_Z (new_distance_B g (fst s) from to))
          (Z.of_nat from), true)
  else s.

Definition pass_B (g : Graph) (start n : nat) (e : BellmanFordAlgorithm)
  : BellmanFordAlgorithm * bool :=
  fold_left (step_B g start) (pairs n) (e, false).

(** [for (i = 0; i < n; ++i)] with [k] passes left; the pass indexed
    [n - 1] returns [true] when it updated. *)
Fixpoint loop_B (g : Graph) (start n k i : nat) (e : BellmanFordAlgorithm)
  : BellmanFordAlgorithm * bool :=
  match k with
  | O => (set_solved e, false)
  | S k' =>
      let (e', u) := pass_B g start n e in
      if (i =? n - 1)%nat && u then (e', true)
      else loop_B g start n k' (S i) e'
  end.

Definition ContainsNegativeCycles_Sedgewick (e : BellmanFordAlgorithm)
  (g : Graph) (start : nat) : BellmanFordAlgorithm * bool :=
  let n := length (Nodes g) in
  loop_B g start n n 0 (init e n start).

(** *** FindPathsAndNegativeCycles (strategy C), lines 190-249 *)

(** The relaxation test on an existing edge. *)
Definition improves_edge (g : Graph) (e : BellmanFordAlgorithm)
  (from to : nat) : bool :=
  negb (Qeq_bool (weight g from to) INF) && improves g e from to.

Definition step_C1 (g : Graph) (e : BellmanFordAlgorithm) (p : nat * nat)
  : BellmanFordAlgorithm :=
  let (from, to) := p in
  if improves_edge g e from to
  then assign e to (dist e from + weight g from to) (Z.of_nat from)
  else e.

Definition step_C2 (g : Graph) (s : BellmanFordAlgorithm * bool)
  (p : nat * nat) : BellmanFordAlgorithm * bool :=
  let (from, to) := p in
  if improves_edge g (fst s) from to
  then (assign (fst s) to NEG_INF (-2)%Z, true)
  else s.

(** The first round: [n - 1] unconditional passes. *)
Definition phase_C1 (g : Graph) (n : nat) (e : BellmanFordAlgorithm)
  : BellmanFordAlgorithm :=
  Nat.iter (n - 1) (fun e' => fold_left (step_C1 g) (pairs n) e') e.

(** The second round: [n - 1] marking passes, [negativeCycles] carried
    along. *)
Definition phase_C2 (g : Graph) (n : nat) (e : BellmanFordAlgorithm)
  : BellmanFordAlgorithm * bool :=
  Nat.iter (n - 1) (fun s => fold_left (step_C2 g) (pairs n) s) (e, false).

Definition FindPathsAndNegativeCycles (e : BellmanFordAlgorithm) (g : Graph)
  (start : nat) : BellmanFordAlgorithm * bool :=
  let n := length (Nodes g) in
  let (e2, negativeCycles) := phase_C2 g n (phase_C1 g n (init e n start)) in
  (set_solved e2, negativeCycles).

(** *** FindPathOnly (strategy D), lines 136-181, and _QueueGet *)

(** [front()] then [pop()]; [None] on an empty queue, where the C++ call is
    undefined. *)
Definition _QueueGet (q : list nat) : option (nat * list nat) :=
  match q with
  | [] => None
  | v :: q' => Some (v, q')
  end.

(** How a run of the worklist loop ends. *)
Inductive Run :=
| OutOfFuel                                (* the model ran out of steps *)
| QueueUnderflow                           (* [front()] on an empty queue *)
| Drained (e : BellmanFordAlgorithm)       (* the [while (!q.empty())] exit *)
| Stopped (e : BellmanFordAlgorithm).      (* the [z++ > n] return *)

Definition step_D (g : Graph) (from : nat)
  (s : BellmanFordAlgorithm * list nat) (to : nat)
  : BellmanFordAlgorithm * list nat :=
  if Qeq_bool (weight g from to) INF then s
  else
    let new_distance := dist (fst s) from + weight g from to in
    if Qgtb (dist (fst s) to) new_distance
    then (assign (fst s) to new_distance (Z.of_nat from), snd s ++ [to])
    else s.

(** The two nested [while] loops, one queue element per unit of fuel.
    [inner] tells that control is inside the sentinel loop, whose
    [_QueueGet] is not preceded by the emptiness test. *)
Fixpoint loop_D (fuel : nat) (g : Graph) (n : nat) (e : BellmanFordAlgorithm)
  (q : list nat) (z : nat) (inner : bool) : Run :=
  match fuel with
  | O => OutOfFuel
  | S fuel' =>
      match _QueueGet q with
      | None => if inner then QueueUnderflow else Drained e
      | Some (from, q') =>
          if (from =? n)%nat then
            if (n <? z)%nat then Stopped (set_solved e)
            else loop_D fuel' g n e (q' ++ [n]) (S z) true
          else
            let (e', q'') := fold_left (step_D g from) (seq 0 n) (e, q') in
            loop_D fuel' g n e' q'' z false
      end
  end.

Definition FindPathOnly (fuel : nat) (e : BellmanFordAlgorithm) (g : Graph)
  (start : nat) : Run :=
  let n := length (Nodes g) in
  loop_D fuel g n (init e n start) [start; n] 0 false.

(** *** ReconstructShortestPath, lines 251-286 *)

(** What the method prints. *)
Inductive Message :=
| NotSolved
| InfinitePaths (start finish : nat)
| PathIs (start finish : nat) (tokens : list (nat * string)).

(** What a call does: it returns, reads outside a vector, or outlives the
    fuel of the model. *)
Inductive Outcome (A : Type) :=
| Returns (a : A)
| Undefined
| Unfinished.
Arguments Returns {A} a.
Arguments Undefined {A}.
Arguments Unfinished {A}.

(** [for (at = finish; _previousVertex[at] != -1 && _previousVertex[at] != -2;
         at = _previousVertex[at]) list.push_back(at);] *)
Fixpoint walk (fuel : nat) (pv : list Z) (cur : nat) (acc : list nat)
  : Outcome (list nat) :=
  match fuel with
  | O => Unfinished
  | S fuel' =>
      match nth_error pv cur with
      | None => Undefined
      | Some p =>
          if (p =? -1)%Z || (p =? -2)%Z then Returns acc
          else if (p <? 0)%Z then Undefined
          else walk fuel' pv (Z.to_nat p) (acc ++ [cur])
      end
  end.

(** The [index(name)] tokens of the printed path. *)
Fixpoint tokens_of (g : Graph) (path : list nat)
  : option (list (nat * string)) :=
  match path with
  | [] => Some []
  | v :: rest =>
      match nth_error (Nodes g) v, tokens_of g rest with
      | Some node, Some ts => Some ((v, Name node) :: ts)
      | _, _ => None
      end
  end.

Definition ReconstructShortestPath (fuel : nat) (e : BellmanFordAlgorithm)
  (g : Graph) (start finish : nat) : Outcome (Message * list nat) :=
  if _solved e then
    match nth_error (_shortestPath e) finish with
    | None => Undefined
    | Some d =>
        if Qeq_bool d NEG_INF
        then Returns (InfinitePaths start finish, [])
        else
          match walk fuel (_previousVertex e) finish [] with
          | Returns l =>
              let path := rev (l ++ [start]) in
              match tokens_of g path with
              | Some ts => Returns (PathIs start finish ts, path)
              | None => Undefined
              end
          | Undefined => Undefined
          | Unfinished => Unfinished
          end
    end
  else Returns (NotSolved, []).

(** ** The graphs of the demo driver *)

Definition mk_graph (names : list string) (m : list (list Q)) : Graph :=
  {| Matrix := m; Edges := []; Nodes := map (fun s => {| Name := s |}) names |}.

Definition graph_usd5 : Graph :=
  mk_graph ["USD"; "CHF"; "YEN"; "GBP"; "CNY"]%string
    [ [0; 6; 7; INF; INF];
      [INF; 0; 8; -4; 5];
      [INF; INF; 0; 9; -3];
      [INF; INF; INF; 0; 7];
      [INF; -2; INF; INF; 0] ].

Definition graph_sedgewick6 : Graph :=
  mk_graph ["USD"; "CHF"; "YEN"; "GBP"; "CNY"; "EUR"]%string
    [ [0; 41#100; INF; INF; INF; 29#100];
      [INF; 0; 51#100; INF; 32#100; INF];
      [INF; INF; 0; 50#100; INF; INF];
      [45#100; INF; INF; 0; INF; -38#100];
      [INF; INF; 32#100; 36#100; 0; INF];
      [INF; -29#100; INF; INF; 21#100; 0] ].

Definition graph_cycle8 : Graph :=
  mk_graph ["USD"; "CHF"; "YEN"; "GBP"; "CNY"; "EUR"; "XXX"; "YYY"]%string
    [ [0; 1; INF; INF; INF; INF; INF; INF];
      [INF; 0; 1; INF; INF; 4; 4; INF];
      [INF; INF; 0; INF; 1; INF; INF; INF];
      [INF; INF; 1; 0; INF; INF; INF; INF];
      [INF; INF; INF; -3; 0; INF; INF; INF];
      [INF; INF; INF; INF; INF; 0; 5; 3];
      [INF; INF; INF; INF; INF; INF; 0; 4];
      [INF; INF; INF; INF; INF; INF; INF; 0] ].

Definition paths_from (fuel : nat) (e : BellmanFordAlgorithm) (g : Graph)
  (from : nat) : list (Outcome (list nat)) :=
  map (fun to =>
         match ReconstructShortestPath fuel e g from to with
         | Returns r => Returns (snd r)
         | Undefined => Undefined
         | Unfinished => Unfinished
         end) (seq 0 (length (Nodes g))).

(** ** The four strategies as one capability *)

Inductive Strategy := StrategyA | StrategyB | StrategyC | StrategyD.

(** The engine a strategy leaves behind. *)
Definition run (fuel : nat) (s : Strategy) (e : BellmanFordAlgorithm)
  (g : Graph) (start : nat) : Outcome BellmanFordAlgorithm :=
  match s with
  | StrategyA => Returns (fst (ContainsNegativeCycles e g start))
  | StrategyB => Returns (fst (ContainsNegativeCycles_Sedgewick e g start))
  | StrategyC => Returns (fst (FindPathsAndNegativeCycles e g start))
  | StrategyD =>
      match FindPathOnly fuel e g start with
      | Stopped e' | Drained e' => Returns e'
      | QueueUnderflow => Undefined
      | OutOfFuel => Unfinished
      end
  end.

(** No relaxation test of the strategy succeeds on the arrays of [e]. *)
Definition quiescent (s : Strategy) (g : Graph) (start : nat)
  (e : BellmanFordAlgorithm) : bool :=
  let n := length (Nodes g) in
  negb (existsb (fun p =>
                   match s with
                   | StrategyA => improves g e (fst p) (snd p)
                   | StrategyB => improves_B g start e (fst p) (snd p)
                   | StrategyC | StrategyD => improves_edge g e (fst p) (snd p)
                   end) (pairs n)).

(** ** Graph notions of the specification *)

(** [from -> to] is an edge: both are nodes and the matrix entry is not the
    missing-edge sentinel. *)
Definition edge (g : Graph) (from to : nat) : bool :=
  (from <? length (Nodes g))%nat && (to <? length (Nodes g))%nat
  && negb (Qeq_bool (weight g from to) INF).

Inductive reachable (g : Graph) (s : nat) : nat -> Prop :=
| reach_here : reachable g s s
| reach_edge u v : reachable g s u -> edge g u v = true -> reachable g s v.

(** The walk [u -> v1 -> ... -> vk] is given by its start and the list of
    the nodes that follow. *)
Fixpoint walk_edges (g : Graph) (u : nat) (p : list nat) : bool :=
  match p with
  | [] => true
  | v :: p' => edge g u v && walk_edges g v p'
  end.

Fixpoint walk_weight (g : Graph) (u : nat) (p : list nat) : Q :=
  match p with
  | [] => 0
  | v :: p' => weight g u v + walk_weight g v p'
  end.

Fixpoint walk_end (u : nat) (p : list nat) : nat :=
  match p with
  | [] => u
  | v :: p' => walk_end v p'
  end.

(** A closed walk along edges, from [u] back to [u], of negative weight.
    Every negative directed cycle is one, and every such walk contains a
    negative directed cycle. *)
Definition negative_cycle (g : Graph) (u : nat) (p : list nat) : bool :=
  walk_edges g u p && (walk_end u p =? u)%nat && Qgtb 0 (walk_weight g u p).

Definition has_negative_cycle (g : Graph) : Prop :=
  exists u p, negative_cycle g u p = true.

(** [v] can be reached from the source through a node of a negative
    cycle. *)
Definition contaminated (g : Graph) (s v : nat) : Prop :=
  exists c p, reachable g s c /\ negative_cycle g c p = true /\ reachable g c v.

(** A potential: no edge admits improvement. *)
Definition feasible (g : Graph) (d : nat -> Q) : Prop :=
  forall u v, edge g u v = true -> d v <= d u + weight g u v.

(** A set of nodes closed under the edges of the graph. *)
Definition closed_under_edges (g : Graph) (inside : nat -> bool) : bool :=
  forallb (fun p => negb (inside (fst p) && edge g (fst p) (snd p))
                    || inside (snd p))
    (pairs (length (Nodes g))).

(** ** Further graphs *)

(** One edge [0 -> 1] of weight -5.5; node 2 is isolated. *)
Definition graph_isolated3 : Graph :=
  mk_graph ["A"; "B"; "C"]%string
    [ [0; -11#2; INF];
      [INF; 0; INF];
      [INF; INF; 0] ].

(** The cycle [0 -> 1 -> 0] of weight 0.5 - 0.75. *)
Definition graph_fraction2 : Graph :=
  mk_graph ["A"; "B"]%string
    [ [0; 1#2];
      [-3#4; 0] ].

(** A single node with a loop of weight -1. *)
Definition graph_loop1 : Graph :=
  mk_graph ["A"]%string [ [-1] ].

(** The cycle [1 -> 2 -> 1] of weight -2, with no edge from node 0. *)
Definition graph_far_cycle3 : Graph :=
  mk_graph ["A"; "B"; "C"]%string
    [ [0; INF; INF];
      [INF; 0; -1];
      [INF; -1; 0] ].

(** One edge [0 -> 1] whose weight is the value of [NEG_INF]. *)
Definition graph_collision2 : Graph :=
  mk_graph ["A"; "B"]%string
    [ [0; -1000000];
      [INF; 0] ].

(** The cycle [0 -> 1 -> 0] of weight 1 - 2. *)
Definition graph_cycle2 : Graph :=
  mk_graph ["A"; "B"]%string
    [ [0; 1];
      [-2; 0] ].

(** The three-node arbitrage table of the driver with a negative cycle. *)
Definition graph_arbitrage3 : Graph :=
  mk_graph ["USD"; "CHF"; "YEN"]%string
    [ [0; 1#10; -501#100];
      [-9#100; 0; -51#10];
      [5; 509#100; 0] ].

(** ** Invariants of the runs *)

(** A run of the worklist loop that needs exactly [fuel0] steps to stop at
    the round bound. *)
Definition stops_after (g : Graph) (n fuel0 : nat) (e : BellmanFordAlgorithm)
  (q : list nat) (z : nat) (inner : bool) (e' : BellmanFordAlgorithm)
  : Prop :=
  forall fuel,
    ((fuel0 <= fuel)%nat -> loop_D fuel g n e q z inner = Stopped e') /\
    ((fuel < fuel0)%nat -> loop_D fuel g n e q z inner = OutOfFuel).

(** The state kept by the relaxation loop of strategy A: the solved flag is
    the one of a fresh engine and no predecessor is the cycle sentinel. *)
Definition unmarked (e : BellmanFordAlgorithm) : Prop :=
  _solved e = false /\
  Forall (fun p => p = (-1)%Z \/ (0 <= p)%Z) (_previousVertex e).

(** What every strategy maintains from a fresh engine on: the vectors have
    [n] entries, the distance of the source never rises above the 0 it was
    given, and while it is 0 the source has no predecessor. *)
Definition source_kept (n start : nat) (e : BellmanFordAlgorithm) : Prop :=
  (start < n)%nat /\
  length (_shortestPath e) = n /\
  length (_previousVertex e) = n /\
  dist e start <= 0 /\
  (dist e start == 0 ->
   nth start (_shortestPath e) 0 = 0 /\ prev e start = (-1)%Z).

(** What the strategies with a reachability discipline (B and D) maintain:
    a node other than the source that was ever written is reachable from
    the source along edges. *)
Definition reached_only (g : Graph) (start : nat) (e : BellmanFordAlgorithm)
  : Prop :=
  length (_shortestPath e) = length (Nodes g) /\
  length (_previousVertex e) = length (Nodes g) /\
  forall v, (v < length (Nodes g))%nat -> v <> start ->
            (prev e v = (-1)%Z /\ nth v (_shortestPath e) 0 = INF) \/
            reachable g start v.


(** An edge [1 -> 0] of weight -1000001 into the source, from a node the
    source does not reach. *)
Definition graph_heavy2 : Graph :=
  mk_graph ["A"; "B"]%string
    [ [0; INF];
      [-1000001; 0] ].

(** One edge [1 -> 2] of weight -1, with no edge from node 0. *)
Definition graph_far_edge3 : Graph :=
  mk_graph ["A"; "B"; "C"]%string
    [ [0; INF; INF];
      [INF; 0; -1];
      [INF; INF; 0] ].

(** ** Further invariants of the runs *)

(** The entries a strategy may leave in [_previousVertex]: the unreached
    sentinel, a node index, and for strategy C the cycle sentinel. *)
Definition pred_entry (s : Strategy) (n : nat) (p : Z) : Prop :=
  p = (-1)%Z \/ (0 <= p < Z.of_nat n)%Z \/ (s = StrategyC /\ p = (-2)%Z).

Definition pred_in_range (s : Strategy) (n : nat) (e : BellmanFordAlgorithm)
  : Prop :=
  length (_shortestPath e) = n /\
  length (_previousVertex e) = n /\
  Forall (pred_entry s n) (_previousVertex e).

(** The queue of strategy D holds the sentinel and node indices. *)
Definition queue_in_range (n : nat) (q : list nat) : Prop :=
  Forall (fun v => (v <= n)%nat) q.

(** A double that holds a whole number. *)
Definition whole (d : Q) : Prop := Qden d = 1%positive.

(** ** The predecessor chain of a node *)

(** The nodes that the loop of ReconstructShortestPath pushes when it
    starts at [cur]: [cur] is pushed when its predecessor is no sentinel,
    the loop goes on at that predecessor, and it stops, pushing nothing, at
    the first node whose predecessor is -1 or -2. *)
Inductive pred_chain (pv : list Z) : nat -> list nat -> Prop :=
| chain_stop cur p :
    nth_error pv cur = Some p ->
    p = (-1)%Z \/ p = (-2)%Z ->
    pred_chain pv cur []
| chain_step cur p rest :
    nth_error pv cur = Some p ->
    (0 <= p)%Z ->
    pred_chain pv (Z.to_nat p) rest ->
    pred_chain pv cur (cur :: rest).

(** What the second round of strategy C maintains: a node marked with the
    cycle sentinel -2 has the distance [NEG_INF], and [negativeCycles] tells
    whether some node is marked. *)
Definition marked_state (n : nat) (st : BellmanFordAlgorithm * bool) : Prop :=
  length (_shortestPath (fst st)) = n /\
  length (_previousVertex (fst st)) = n /\
  (forall v, (v < n)%nat -> prev (fst st) v = (-2)%Z ->
             nth v (_shortestPath (fst st)) 0 = NEG_INF) /\
  (snd st = true <-> exists v, (v < n)%nat /\ prev (fst st) v = (-2)%Z).

(** What the relaxations maintain about the predecessor of each node: the
    pair (predecessor, node) passed the guard [adm] of the strategy, and
    the distance of the predecessor plus the weight of the pair is no more
    than the distance of the node, unless the node is its own predecessor,
    which takes a negative loop. *)
Definition pred_edges_ok (adm : nat -> nat -> Prop) (g : Graph) (n : nat)
  (e : BellmanFordAlgorithm) : Prop :=
  length (_shortestPath e) = n /\
  length (_previousVertex e) = n /\
  forall v u,
    (v < n)%nat -> prev e v = Z.of_nat u ->
    (u < n)%nat /\ adm u v /\
    ((u <> v /\ dist e u + weight g u v <= dist e v) \/
     (u = v /\ weight g v v < 0)).

(** ** Relaxation in general *)




(** The distance every strategy starts a node with. *)
Definition base (start u : nat) : Q :=
  if (u =? start)%nat then 0 else INF.







(** ** The drivers of main.cpp, lines 297-348 *)

(** A line written to the console. *)
Inductive Line :=
| Banner (title : string)
| CycleLine                 (* Graph contains negative cycle. *)
| Report (m : Message).

Definition banner_simple : string :=
  ("///////Simplest alg////////////////////////////////")%string.

Definition banner_detect : string :=
  ("///////Detect cycles with Bellmand Ford from Whilliam Fi" ++
   "set////////////////////////////")%string.

Definition banner_sedgewick : string :=
  ("///////Sedgewick/////////////////////////////////")%string.

Definition banner_fifo : string :=
  ("///////Sedgewick Fifo///////////////////////////")%string.

(** [for (to = 0; to < n; to++) algo.ReconstructShortestPath(graph, from, to);]
    over the destinations [tos]: the lines written, and how the loop ends.
    A call that does not return writes nothing. *)
Fixpoint reconstruct_all (fuel : nat) (e : BellmanFordAlgorithm) (g : Graph)
  (from : nat) (tos : list nat) : list Line * Outcome unit :=
  match tos with
  | [] => ([], Returns tt)
  | to :: rest =>
      match ReconstructShortestPath fuel e g from to with
      | Returns r =>
          let (ls, o) := reconstruct_all fuel e g from rest in
          (Report (fst r) :: ls, o)
      | Undefined => ([], Undefined)
      | Unfinished => ([], Unfinished)
      end
  end.

(** The common body of the drivers once the strategy has run. *)
Definition report (title : string) (cycle : bool) (fuel : nat)
  (e : BellmanFordAlgorithm) (g : Graph) (from : nat)
  : list Line * Outcome unit :=
  let (ls, o) :=
    reconstruct_all fuel e g from (seq 0 (length (Nodes g))) in
  (Banner title :: (if cycle then [CycleLine] else []) ++ ls, o).

Definition runSimple (fuel : nat) (g : Graph) (from : nat)
  : list Line * Outcome unit :=
  let (e, c) := ContainsNegativeCycles fresh g from in
  report banner_simple c fuel e g from.

Definition runDetectNegativeCycles (fuel : nat) (g : Graph) (from : nat)
  : list Line * Outcome unit :=
  let (e, c) := FindPathsAndNegativeCycles fresh g from in
  report banner_detect c fuel e g from.

Definition runSedgewick (fuel : nat) (g : Graph) (from : nat)
  : list Line * Outcome unit :=
  let (e, c) := ContainsNegativeCycles_Sedgewick fresh g from in
  report banner_sedgewick c fuel e g from.

(** [steps] bounds the worklist loop, [fuel] each reconstruction. *)
Definition runSedgewickFifo (steps fuel : nat) (g : Graph) (from : nat)
  : list Line * Outcome unit :=
  match FindPathOnly steps fresh g from with
  | Stopped e | Drained e => report banner_fifo false fuel e g from
  | QueueUnderflow => ([Banner banner_fifo], Undefined)
  | OutOfFuel => ([Banner banner_fifo], Unfinished)
  end.

(** What every strategy maintains between the two vectors: a node whose
    predecessor is -1 still has the distance it started with, and a node
    with any other predecessor has a distance strictly below it. *)
Definition reached_marks (n start : nat) (e : BellmanFordAlgorithm) : Prop :=
  length (_shortestPath e) = n /\
  length (_previousVertex e) = n /\
  forall v, (v < n)%nat ->
            (prev e v = (-1)%Z /\ nth v (_shortestPath e) 0 = base start v) \/
            (prev e v <> (-1)%Z /\ dist e v < base start v).

(** * Properties *)

(** ** Doubles and vectors *)

Lemma Qgtb_false (a b : Q) : Qgtb a b = false <-> a <= b.
Proof.
  unfold Qgtb. rewrite negb_false_iff. apply Qle_bool_iff.
Qed.

Lemma Qgtb_true (a b : Q) : Qgtb a b = true <-> b < a.
Proof.
  unfold Qgtb. rewrite negb_true_iff. split; intro H.
  - apply Qnot_le_lt. intro Hle. apply Qle_bool_iff in Hle. congruence.
  - destruct (Qle_bool a b) eqn:E; [|reflexivity].
    apply Qle_bool_iff in E. exfalso. apply (Qlt_not_le _ _ H E).
Qed.

Lemma length_vset {A : Type} (i : nat) (x : A) (v : list A) :
  length (vset i x v) = length v.
Proof.
  revert i. induction v as [|h t IH]; intros [|j]; simpl; auto.
Qed.

Lemma nth_vset_same {A : Type} (i : nat) (x d : A) (v : list A) :
  (i < length v)%nat -> nth i (vset i x v) d = x.
Proof.
  revert i. induction v as [|h t IH]; intros [|j] H; simpl in *;
    try lia; auto. apply IH. lia.
Qed.

Lemma nth_vset_other {A : Type} (i j : nat) (x d : A) (v : list A) :
  i <> j -> nth j (vset i x v) d = nth j v d.
Proof.
  revert i j. induction v as [|h t IH]; intros [|i] [|j] H; simpl;
    try congruence; auto.
Qed.

Lemma length_resize {A : Type} (n : nat) (x : A) (v : list A) :
  length (resize n x v) = n.
Proof.
  unfold resize. rewrite length_app, length_firstn, repeat_length. lia.
Qed.

Lemma resize_full {A : Type} (n : nat) (x : A) (v : list A) :
  length v = n -> resize n x v = v.
Proof.
  intros <-. unfold resize. rewrite firstn_all, Nat.sub_diag. simpl.
  apply app_nil_r.
Qed.

Lemma resize_nil {A : Type} (n : nat) (x : A) :
  resize n x [] = repeat x n.
Proof.
  unfold resize. rewrite firstn_nil. simpl. now rewrite Nat.sub_0_r.
Qed.

Lemma in_pairs (n u v : nat) :
  In (u, v) (pairs n) <-> (u < n)%nat /\ (v < n)%nat.
Proof.
  unfold pairs. rewrite in_prod_iff, !in_seq. lia.
Qed.

Lemma existsb_false {X : Type} (f : X -> bool) (l : list X) :
  existsb f l = false -> forall x, In x l -> f x = false.
Proof.
  intros H x Hx. destruct (f x) eqn:E; [|reflexivity].
  rewrite <- H. symmetry. apply existsb_exists. now exists x.
Qed.

(** An invariant of every step is an invariant of the loop. *)
Lemma fold_left_invariant {S X : Type} (P : S -> Prop) (f : S -> X -> S)
  (l : list X) (s : S) :
  (forall s' x, In x l -> P s' -> P (f s' x)) -> P s -> P (fold_left f l s).
Proof.
  revert s. induction l as [|x l IH]; intros s Hstep Hs; simpl; auto.
  apply IH.
  - intros s' y Hy. apply Hstep. now right.
  - apply Hstep; auto. now left.
Qed.

Lemma iter_invariant {S : Type} (P : S -> Prop) (f : S -> S) (k : nat)
  (s : S) :
  (forall s', P s' -> P (f s')) -> P s -> P (Nat.iter k f s).
Proof.
  intros Hstep Hs. induction k as [|k IH]; simpl; auto.
Qed.

(** ** Path reconstruction *)

(** C6: on an engine whose solved flag is false, path reconstruction
    reports "not solved" and returns the empty sequence, whatever the
    arrays, the endpoints and the graph are; none of them is read. *)
Theorem reconstruct_not_solved (fuel : nat) (e : BellmanFordAlgorithm)
  (g : Graph) (start finish : nat) :
  _solved e = false ->
  ReconstructShortestPath fuel e g start finish = Returns (NotSolved, []).
Proof.
  intros H. unfold ReconstructShortestPath. now rewrite H.
Qed.

Lemma reconstruct_not_solved_witness :
  _solved fresh = false /\
  ReconstructShortestPath 0 fresh graph_usd5 0 3 = Returns (NotSolved, []).
Proof.
  split; [reflexivity | apply reconstruct_not_solved; reflexivity].
Defined.

(** C5: on a solved engine, when the distance of [finish] equals the
    negative-infinity sentinel, path reconstruction reports "infinite
    number of shortest paths" and returns the empty sequence, without
    walking the predecessor links. *)
Theorem reconstruct_negative_infinity (fuel : nat) (e : BellmanFordAlgorithm)
  (g : Graph) (start finish : nat) (d : Q) :
  _solved e = true ->
  nth_error (_shortestPath e) finish = Some d ->
  d == NEG_INF ->
  ReconstructShortestPath fuel e g start finish
  = Returns (InfinitePaths start finish, []).
Proof.
  intros Hs Hd Heq. unfold ReconstructShortestPath. rewrite Hs, Hd.
  apply Qeq_bool_iff in Heq. now rewrite Heq.
Qed.

Lemma reconstruct_negative_infinity_witness :
  let e := fst (FindPathsAndNegativeCycles fresh graph_cycle8 0) in
  _solved e = true /\
  nth_error (_shortestPath e) 3 = Some NEG_INF /\
  ReconstructShortestPath 0 e graph_cycle8 0 3
  = Returns (InfinitePaths 0 3, []).
Proof.
  assert (Hd : nth_error
                 (_shortestPath
                    (fst (FindPathsAndNegativeCycles fresh graph_cycle8 0))) 3
               = Some NEG_INF) by (vm_compute; reflexivity).
  split; [vm_compute; reflexivity | split; [exact Hd|]].
  apply (reconstruct_negative_infinity 0 _ graph_cycle8 0 3 NEG_INF);
    [vm_compute; reflexivity | exact Hd | reflexivity].
Defined.

(** ** Strategy D: the worklist and its sentinel *)

Section Worklist.

Variable g : Graph.
Variable n : nat.

(** Relaxing the edges of one node only appends nodes to the queue. *)
Lemma relax_appends (from : nat) (l : list nat) (e : BellmanFordAlgorithm)
  (q : list nat) :
  Forall (fun to => to <> n) l ->
  exists e' pushed,
    fold_left (step_D g from) l (e, q) = (e', q ++ pushed) /\
    Forall (fun to => to <> n) pushed.
Proof.
  revert e q. induction l as [|to l IH]; intros e q Hl; simpl.
  - exists e, []. now rewrite app_nil_r.
  - inversion Hl as [|? ? Hto Hl']; subst.
    unfold step_D at 2; simpl.
    destruct (Qeq_bool (weight g from to) INF); [now apply IH|].
    destruct (Qgtb (dist e to) (dist e from + weight g from to));
      [|now apply IH].
    destruct (IH (assign e to (dist e from + weight g from to)
                    (Z.of_nat from)) (q ++ [to]) Hl')
      as (e' & pushed & Hfold & Hpushed).
    exists e', (to :: pushed). rewrite Hfold, <- app_assoc. simpl.
    split; [reflexivity | now constructor].
Qed.

Lemma seq_below : Forall (fun to => to <> n) (seq 0 n).
Proof.
  apply Forall_forall. intros x Hx. apply in_seq in Hx. lia.
Qed.

(** One more step in front of a run that stops. *)
Lemma stops_after_step (fuel0 : nat) (e e1 e' : BellmanFordAlgorithm)
  (q q1 : list nat) (z z1 : nat) (inner inner1 : bool) :
  (forall fuel, loop_D (S fuel) g n e q z inner
                = loop_D fuel g n e1 q1 z1 inner1) ->
  stops_after g n fuel0 e1 q1 z1 inner1 e' ->
  stops_after g n (S fuel0) e q z inner e'.
Proof.
  intros Hstep Hrest [|fuel]; split; intro Hf; try lia; try reflexivity.
  - rewrite Hstep. apply Hrest. lia.
  - rewrite Hstep. apply Hrest. lia.
Qed.

(** With the sentinel in the queue once and [r] rounds left, the loop
    reaches the round bound. *)
Lemma loop_D_stops (r : nat) :
  forall z pre post e inner,
    (z + r = n + 1)%nat ->
    Forall (fun v => v <> n) pre ->
    Forall (fun v => v <> n) post ->
    exists fuel0 e',
      _solved e' = true /\
      stops_after g n fuel0 e (pre ++ n :: post) z inner e'.
Proof.
  induction r as [|r IHr]; intros z pre; induction pre as [|v pre IHpre];
    intros post e inner Hz Hpre Hpost.
  - exists 1%nat, (set_solved e). split; [reflexivity|].
    intros [|fuel]; split; intro Hf; try lia; try reflexivity.
    simpl. rewrite Nat.eqb_refl.
    replace (n <? z)%nat with true by (symmetry; apply Nat.ltb_lt; lia).
    reflexivity.
  - inversion Hpre as [|? ? Hv Hpre']; subst.
    destruct (relax_appends v (seq 0 n) e (pre ++ n :: post) seq_below)
      as (e1 & pushed & Hfold & Hpushed).
    destruct (IHpre (post ++ pushed) e1 false Hz Hpre')
      as (fuel0 & e' & Hs & Hstop).
    { apply Forall_app; auto. }
    exists (S fuel0), e'. split; [exact Hs|].
    eapply stops_after_step; [|exact Hstop].
    intros fuel. simpl.
    replace (v =? n)%nat with false by (symmetry; apply Nat.eqb_neq; lia).
    rewrite Hfold, <- app_assoc. reflexivity.
  - destruct (IHr (S z) post [] e true) as (fuel0 & e' & Hs & Hstop);
      auto; try lia.
    exists (S fuel0), e'. split; [exact Hs|].
    eapply stops_after_step; [|exact Hstop].
    intros fuel. simpl. rewrite Nat.eqb_refl.
    replace (n <? z)%nat with false by (symmetry; apply Nat.ltb_ge; lia).
    reflexivity.
  - inversion Hpre as [|? ? Hv Hpre']; subst.
    destruct (relax_appends v (seq 0 n) e (pre ++ n :: post) seq_below)
      as (e1 & pushed & Hfold & Hpushed).
    destruct (IHpre (post ++ pushed) e1 false Hz Hpre')
      as (fuel0 & e' & Hs & Hstop).
    { apply Forall_app; auto. }
    exists (S fuel0), e'. split; [exact Hs|].
    eapply stops_after_step; [|exact Hstop].
    intros fuel. simpl.
    replace (v =? n)%nat with false by (symmetry; apply Nat.eqb_neq; lia).
    rewrite Hfold, <- app_assoc. reflexivity.
Qed.

End Worklist.

(** C10: from every source below the node count, on every graph (negative
    cycles included) and every engine, FindPathOnly terminates, and always
    through the round bound: some number of loop steps [fuel0] exists such
    that the run stops at [z++ > n] with the solved flag set once it is
    given [fuel0] steps, and is still running with fewer.  It never leaves
    through the emptiness test of the queue and never reads an empty
    queue. *)
Theorem FindPathOnly_terminates (e : BellmanFordAlgorithm) (g : Graph)
  (start : nat) :
  (start < length (Nodes g))%nat ->
  exists fuel0 e',
    _solved e' = true /\
    forall fuel,
      ((fuel0 <= fuel)%nat -> FindPathOnly fuel e g start = Stopped e') /\
      ((fuel < fuel0)%nat -> FindPathOnly fuel e g start = OutOfFuel).
Proof.
  intros Hstart. unfold FindPathOnly.
  apply (loop_D_stops g (length (Nodes g)) (length (Nodes g) + 1)
           0 [start] [] _ false).
  - lia.
  - constructor; [lia | constructor].
  - constructor.
Qed.

Lemma FindPathOnly_terminates_witness :
  (0 < length (Nodes graph_cycle8))%nat /\
  exists fuel0 e',
    _solved e' = true /\
    forall fuel,
      ((fuel0 <= fuel)%nat ->
       FindPathOnly fuel fresh graph_cycle8 0 = Stopped e') /\
      ((fuel < fuel0)%nat ->
       FindPathOnly fuel fresh graph_cycle8 0 = OutOfFuel).
Proof.
  split; [simpl; lia | apply FindPathOnly_terminates; simpl; lia].
Defined.

(** ** Potentials and negative cycles *)

Lemma feasible_walk (g : Graph) (d : nat -> Q) (p : list nat) :
  feasible g d ->
  forall u, walk_edges g u p = true ->
            d (walk_end u p) <= d u + walk_weight g u p.
Proof.
  intros Hd. induction p as [|v p IH]; intros u Hp; simpl in *.
  - lra.
  - apply andb_true_iff in Hp. destruct Hp as [Huv Hp].
    specialize (IH v Hp). specialize (Hd u v Huv). lra.
Qed.

(** A graph that has a potential has no negative cycle. *)
Lemma feasible_no_negative_cycle (g : Graph) (d : nat -> Q) :
  feasible g d -> ~ has_negative_cycle g.
Proof.
  intros Hd (u & p & Hc). unfold negative_cycle in Hc.
  apply andb_true_iff in Hc. destruct Hc as [Hc Hneg].
  apply andb_true_iff in Hc. destruct Hc as [Hp Hend].
  apply Nat.eqb_eq in Hend. apply Qgtb_true in Hneg.
  pose proof (feasible_walk g d p Hd u Hp) as H. rewrite Hend in H. lra.
Qed.

Lemma edge_in_pairs (g : Graph) (u v : nat) :
  edge g u v = true ->
  In (u, v) (pairs (length (Nodes g))) /\
  Qeq_bool (weight g u v) INF = false.
Proof.
  unfold edge. rewrite !andb_true_iff, !Nat.ltb_lt, negb_true_iff, in_pairs.
  tauto.
Qed.


(** The same for the test on existing edges (strategies C and D). *)
Lemma quiet_edges_feasible (g : Graph) (e : BellmanFordAlgorithm) :
  existsb (fun p => improves_edge g e (fst p) (snd p))
    (pairs (length (Nodes g))) = false ->
  feasible g (dist e).
Proof.
  intros H u v Huv. apply edge_in_pairs in Huv. destruct Huv as [Hin Hw].
  apply (existsb_false _ _ H) in Hin. simpl in Hin.
  unfold improves_edge in Hin. rewrite Hw in Hin. simpl in Hin.
  now apply Qgtb_false.
Qed.

(** ** Strategy A: passes that do not update *)

Lemma step_A_sticky (g : Graph) (l : list (nat * nat))
  (e : BellmanFordAlgorithm) :
  snd (fold_left (step_A g) l (e, true)) = true.
Proof.
  revert e. induction l as [|[from to] l IH]; intros e; simpl; auto.
  destruct (improves g e from to); apply IH.
Qed.

Lemma fold_A_quiet (g : Graph) (l : list (nat * nat))
  (e e' : BellmanFordAlgorithm) :
  fold_left (step_A g) l (e, false) = (e', false) ->
  e' = e /\ existsb (fun p => improves g e (fst p) (snd p)) l = false.
Proof.
  revert e'. induction l as [|[from to] l IH]; intros e' H; simpl in *.
  - split; congruence.
  - destruct (improves g e from to) eqn:E.
    + pose proof (step_A_sticky g l
                    (assign e to (dist e from + weight g from to)
                       (Z.of_nat from))) as Hs.
      rewrite H in Hs. discriminate.
    + now apply IH.
Qed.

Lemma fold_A_quiet_inv (g : Graph) (l : list (nat * nat))
  (e : BellmanFordAlgorithm) :
  existsb (fun p => improves g e (fst p) (snd p)) l = false ->
  fold_left (step_A g) l (e, false) = (e, false).
Proof.
  induction l as [|[from to] l IH]; intros H; simpl in *; auto.
  apply orb_false_iff in H. destruct H as [H1 H2]. rewrite H1. auto.
Qed.

(** When the relaxation loop of strategy A ends with [updated = false],
    either no pass was run or its last pass found no pair to improve. *)
Lemma relax_A_quiet (g : Graph) (n k : nat) :
  forall e u e1,
    relax_A g n k e u = (e1, false) ->
    (k = 0%nat /\ u = false /\ e1 = e) \/ still_improves g n e1 = false.
Proof.
  induction k as [|k IH]; intros e u e1 H; simpl in H.
  - left. inversion H. auto.
  - right. destruct (pass_A g n e) as [e' u'] eqn:Hp.
    destruct u'.
    + destruct (IH _ _ _ H) as [(_ & Hu & _) | Hq]; [discriminate | exact Hq].
    + inversion H; subst. apply fold_A_quiet in Hp. destruct Hp as [-> Hq].
      exact Hq.
Qed.


(** ** Strategy C: marking passes that do not mark *)

Lemma step_C2_sticky (g : Graph) (l : list (nat * nat))
  (e : BellmanFordAlgorithm) :
  snd (fold_left (step_C2 g) l (e, true)) = true.
Proof.
  revert e. induction l as [|[from to] l IH]; intros e; simpl; auto.
  destruct (improves_edge g e from to); apply IH.
Qed.

Lemma fold_C2_quiet (g : Graph) (l : list (nat * nat))
  (e e' : BellmanFordAlgorithm) :
  fold_left (step_C2 g) l (e, false) = (e', false) ->
  e' = e /\ existsb (fun p => improves_edge g e (fst p) (snd p)) l = false.
Proof.
  revert e'. induction l as [|[from to] l IH]; intros e' H; simpl in *.
  - split; congruence.
  - destruct (improves_edge g e from to) eqn:E.
    + pose proof (step_C2_sticky g l (assign e to NEG_INF (-2)%Z)) as Hs.
      rewrite H in Hs. discriminate.
    + now apply IH.
Qed.

Lemma fold_C2_quiet_inv (g : Graph) (l : list (nat * nat))
  (e : BellmanFordAlgorithm) :
  existsb (fun p => improves_edge g e (fst p) (snd p)) l = false ->
  fold_left (step_C2 g) l (e, false) = (e, false).
Proof.
  induction l as [|[from to] l IH]; intros H; simpl in *; auto.
  apply orb_false_iff in H. destruct H as [H1 H2]. rewrite H1. auto.
Qed.

Lemma iter_C2_sticky (g : Graph) (n k : nat) (e : BellmanFordAlgorithm) :
  snd (Nat.iter k (fun s => fold_left (step_C2 g) (pairs n) s) (e, true))
  = true.
Proof.
  induction k as [|k IH]; simpl; auto.
  destruct (Nat.iter k _ (e, true)) as [e' u]. simpl in IH. subst u.
  apply step_C2_sticky.
Qed.

(** When the second round of strategy C marks nothing, either it had no pass
    or no edge admitted improvement after the first round. *)
Lemma phase_C2_quiet (g : Graph) (n : nat) (e e' : BellmanFordAlgorithm) :
  phase_C2 g n e = (e', false) ->
  (n - 1 = 0)%nat \/
  (e' = e /\
   existsb (fun p => improves_edge g e (fst p) (snd p)) (pairs n) = false).
Proof.
  unfold phase_C2. destruct (n - 1)%nat as [|k]; [now left|].
  intros H. right. rewrite Nat.iter_succ_r in H.
  destruct (fold_left (step_C2 g) (pairs n) (e, false)) as [e1 u] eqn:Hp.
  destruct u.
  - pose proof (iter_C2_sticky g n k e1) as Hs. rewrite H in Hs.
    discriminate.
  - apply fold_C2_quiet in Hp. destruct Hp as [-> Hq]. split; [|exact Hq].
    clear -H Hq. revert e' H. induction k as [|k IH]; intros e' H; simpl in H.
    + congruence.
    + destruct (Nat.iter k _ (e, false)) as [e2 u2] eqn:Hi.
      destruct u2.
      * pose proof (step_C2_sticky g (pairs n) e2) as Hs. rewrite H in Hs.
        discriminate.
      * specialize (IH e2 eq_refl). subst e2.
        rewrite (fold_C2_quiet_inv g _ e Hq) in H. congruence.
Qed.




(** C2 fails on the code.  On the two-node graph with the cycle
    [0 -> 1 -> 0] of weights 0.5 and -0.75, which goes through the source,
    ContainsNegativeCycles_Sedgewick truncates every candidate distance to
    0 through [int new_distance], ends solved and returns false.  It
    returns false as well on the three-node arbitrage table of the driver,
    whose cycle [0 -> 2 -> 1 -> 0] has weight -0.01.  On the one-node graph
    with a loop of weight -1, ContainsNegativeCycles and
    FindPathsAndNegativeCycles run no pass at all and return false. *)
Theorem negative_cycle_missed :
  (let g := graph_fraction2 in
   let r := ContainsNegativeCycles_Sedgewick fresh g 0 in
   negative_cycle g 0 [1; 0]%nat = true /\ reachable g 0 0 /\
   snd r = false /\ _solved (fst r) = true /\
   dist (fst r) 0 == 0 /\ dist (fst r) 1 == 0) /\
  (let g := graph_arbitrage3 in
   negative_cycle g 0 [2; 1; 0]%nat = true /\ reachable g 0 0 /\
   snd (ContainsNegativeCycles_Sedgewick fresh g 0) = false) /\
  (let g := graph_loop1 in
   negative_cycle g 0 [0%nat] = true /\ reachable g 0 0 /\
   snd (ContainsNegativeCycles fresh g 0) = false /\
   snd (FindPathsAndNegativeCycles fresh g 0) = false).
Proof.
  repeat split; try (vm_compute; reflexivity); constructor.
Qed.

(** ** Strategy A: what a run leaves in the engine *)

Lemma Forall_vset {A : Type} (P : A -> Prop) (i : nat) (x : A) (v : list A) :
  P x -> Forall P v -> Forall P (vset i x v).
Proof.
  intros Hx. revert i. induction v as [|h t IH]; intros [|j] Hv; simpl;
    auto; inversion Hv; subst; constructor; auto.
Qed.

Lemma unmarked_init (n start : nat) : unmarked (init fresh n start).
Proof.
  split; [reflexivity|]. simpl. rewrite resize_nil.
  apply Forall_forall. intros p Hp. apply repeat_spec in Hp. now left.
Qed.

Lemma unmarked_pass_A (g : Graph) (n : nat) (e : BellmanFordAlgorithm) :
  unmarked e -> unmarked (fst (pass_A g n e)).
Proof.
  intros He. unfold pass_A.
  apply (fold_left_invariant (fun s => unmarked (fst s))); [|exact He].
  intros [e' u] [from to] _ [Hs Hp]. unfold step_A. simpl in *.
  destruct (improves g e' from to); simpl; [|now split].
  split; [exact Hs|]. apply Forall_vset; [right; lia | exact Hp].
Qed.

Lemma unmarked_relax_A (g : Graph) (n k : nat) :
  forall e u, unmarked e -> unmarked (fst (relax_A g n k e u)).
Proof.
  induction k as [|k IH]; intros e u He; simpl; [exact He|].
  pose proof (unmarked_pass_A g n e He) as Hp.
  destruct (pass_A g n e) as [e' u']. simpl in Hp.
  destruct u'; [now apply IH | exact Hp].
Qed.

(** C4 (amended): run on a fresh engine, when the relaxation loop of
    ContainsNegativeCycles ends with its last pass updating and some ordered
    pair still admits improvement, the method returns true (cycle found)
    and hands back exactly the arrays the relaxation loop left: the
    verification pass writes nothing.  The solved flag is not set (it is
    still false), and no predecessor holds the cycle sentinel -2: each is
    -1 or a node index. *)
Theorem ContainsNegativeCycles_cycle_found (g : Graph) (start : nat)
  (e1 : BellmanFordAlgorithm) :
  relax_A g (length (Nodes g)) (length (Nodes g) - 1)
    (init fresh (length (Nodes g)) start) false = (e1, true) ->
  still_improves g (length (Nodes g)) e1 = true ->
  ContainsNegativeCycles fresh g start = (e1, true) /\
  _solved e1 = false /\
  Forall (fun p => p <> (-2)%Z) (_previousVertex e1).
Proof.
  intros Hr Hv.
  pose proof (unmarked_relax_A g (length (Nodes g)) (length (Nodes g) - 1)
                _ false (unmarked_init (length (Nodes g)) start)) as Hu.
  rewrite Hr in Hu. destruct Hu as [Hs Hp]. simpl in Hs, Hp.
  split; [|split; [exact Hs|]].
  - unfold ContainsNegativeCycles. rewrite Hr, Hv. reflexivity.
  - eapply Forall_impl; [|exact Hp]. simpl. intros p [-> | H]; lia.
Qed.

Lemma ContainsNegativeCycles_cycle_found_witness :
  let g := graph_cycle8 in
  let e1 := fst (relax_A g 8 7 (init fresh 8 0) false) in
  relax_A g (length (Nodes g)) (length (Nodes g) - 1)
    (init fresh (length (Nodes g)) 0) false = (e1, true) /\
  still_improves g (length (Nodes g)) e1 = true /\
  ContainsNegativeCycles fresh g 0 = (e1, true) /\
  _solved e1 = false /\
  Forall (fun p => p <> (-2)%Z) (_previousVertex e1).
Proof.
  intros g e1.
  assert (Hr : relax_A g (length (Nodes g)) (length (Nodes g) - 1)
                 (init fresh (length (Nodes g)) 0) false = (e1, true))
    by (vm_compute; reflexivity).
  assert (Hv : still_improves g (length (Nodes g)) e1 = true)
    by (vm_compute; reflexivity).
  split; [exact Hr | split; [exact Hv|]].
  exact (ContainsNegativeCycles_cycle_found g 0 e1 Hr Hv).
Defined.

(** C4 as stated fails: on the eight-node graph of the driver, whose cycle
    [2 -> 4 -> 3 -> 2] is negative, the last relaxation pass updates, the
    verification pass finds an improvement and the method returns true, yet
    the solved flag is false afterwards, so that path reconstruction
    answers "not solved". *)
Lemma ContainsNegativeCycles_cycle_found_unsolved :
  let r := ContainsNegativeCycles fresh graph_cycle8 0 in
  snd (relax_A graph_cycle8 8 7 (init fresh 8 0) false) = true /\
  still_improves graph_cycle8 8 (fst r) = true /\
  snd r = true /\
  _solved (fst r) = false /\
  ReconstructShortestPath 8 (fst r) graph_cycle8 0 1 = Returns (NotSolved, []).
Proof.
  repeat split; vm_compute; reflexivity.
Qed.

(** ** The source node across a run *)

Section Source.

Variable g : Graph.
Variable n : nat.
Variable start : nat.

Lemma source_kept_init :
  (start < n)%nat -> source_kept n start (init fresh n start).
Proof.
  intros Hs. unfold source_kept, dist, prev, init, fresh.
  cbn [_shortestPath _previousVertex].
  rewrite !resize_nil, length_vset, !repeat_length.
  rewrite nth_vset_same by (rewrite repeat_length; exact Hs).
  rewrite nth_repeat_lt by exact Hs.
  repeat split; auto. lra.
Qed.

Lemma source_kept_assign (e : BellmanFordAlgorithm) (to : nat) (d : Q)
  (p : Z) :
  source_kept n start e -> (to = start -> d < 0) ->
  source_kept n start (assign e to d p).
Proof.
  intros (Hs & Hl1 & Hl2 & Hle & Hz) Hd.
  unfold source_kept, dist, prev in *. simpl. rewrite !length_vset.
  destruct (Nat.eq_dec to start) as [-> | Hne].
  - specialize (Hd eq_refl).
    rewrite nth_vset_same by (rewrite Hl1; exact Hs).
    repeat split; auto; try lra.
  - rewrite !nth_vset_other by exact Hne. repeat split; auto; tauto.
Qed.

Lemma source_kept_solved (e : BellmanFordAlgorithm) :
  source_kept n start e -> source_kept n start (set_solved e).
Proof. intros H. exact H. Qed.

Lemma improves_lowers (e : BellmanFordAlgorithm) (from to : nat) :
  source_kept n start e -> improves g e from to = true -> to = start ->
  dist e from + weight g from to < 0.
Proof.
  intros (_ & _ & _ & Hle & _) Hi ->. apply Qgtb_true in Hi. lra.
Qed.

Lemma source_kept_step_A (s : BellmanFordAlgorithm * bool)
  (p : nat * nat) :
  source_kept n start (fst s) -> source_kept n start (fst (step_A g s p)).
Proof.
  destruct s as [e u], p as [from to]. unfold step_A. simpl. intros He.
  destruct (improves g e from to) eqn:Hi; simpl; [|exact He].
  apply source_kept_assign; [exact He|].
  now apply improves_lowers.
Qed.

Lemma source_kept_step_B (s : BellmanFordAlgorithm * bool)
  (p : nat * nat) :
  source_kept n start (fst s) ->
  source_kept n start (fst (step_B g start s p)).
Proof.
  destruct s as [e u], p as [from to]. unfold step_B. simpl. intros He.
  destruct (improves_B g start e from to) eqn:Hi; simpl; [|exact He].
  apply source_kept_assign; [exact He|]. intros ->.
  unfold improves_B in Hi.
  destruct (negb (from =? start)%nat && (prev e from =? -1)%Z);
    [discriminate|].
  destruct (Qeq_bool (weight g from start) INF); [discriminate|].
  apply Qgtb_true in Hi. destruct He as (_ & _ & _ & Hle & _). lra.
Qed.

Lemma source_kept_step_C1 (e : BellmanFordAlgorithm) (p : nat * nat) :
  source_kept n start e -> source_kept n start (step_C1 g e p).
Proof.
  destruct p as [from to]. unfold step_C1. intros He.
  destruct (improves_edge g e from to) eqn:Hi; [|exact He].
  apply source_kept_assign; [exact He|].
  unfold improves_edge in Hi. apply andb_true_iff in Hi.
  now apply improves_lowers.
Qed.

Lemma source_kept_step_C2 (s : BellmanFordAlgorithm * bool)
  (p : nat * nat) :
  source_kept n start (fst s) -> source_kept n start (fst (step_C2 g s p)).
Proof.
  destruct s as [e u], p as [from to]. unfold step_C2. simpl. intros He.
  destruct (improves_edge g e from to); simpl; [|exact He].
  apply source_kept_assign; [exact He|]. intros _. reflexivity.
Qed.

Lemma source_kept_step_D (from : nat)
  (s : BellmanFordAlgorithm * list nat) (to : nat) :
  source_kept n start (fst s) ->
  source_kept n start (fst (step_D g from s to)).
Proof.
  destruct s as [e q]. unfold step_D. simpl. intros He.
  destruct (Qeq_bool (weight g from to) INF); [exact He|].
  destruct (Qgtb (dist e to) (dist e from + weight g from to)) eqn:Hi;
    simpl; [|exact He].
  apply source_kept_assign; [exact He|]. now apply improves_lowers.
Qed.

Lemma source_kept_relax_A (k : nat) :
  forall e u,
    source_kept n start e -> source_kept n start (fst (relax_A g n k e u)).
Proof.
  induction k as [|k IH]; intros e u He; simpl; [exact He|].
  assert (Hp : source_kept n start (fst (pass_A g n e))).
  { unfold pass_A.
    apply (fold_left_invariant (fun s => source_kept n start (fst s)));
      [|exact He].
    intros s' x _. apply source_kept_step_A. }
  destruct (pass_A g n e) as [e' u']. simpl in Hp.
  destruct u'; [now apply IH | exact Hp].
Qed.

Lemma source_kept_loop_B (k : nat) :
  forall i e,
    source_kept n start e ->
    source_kept n start (fst (loop_B g start n k i e)).
Proof.
  induction k as [|k IH]; intros i e He; simpl; [exact He|].
  assert (Hp : source_kept n start (fst (pass_B g start n e))).
  { unfold pass_B.
    apply (fold_left_invariant (fun s => source_kept n start (fst s)));
      [|exact He].
    intros s' x _. apply source_kept_step_B. }
  destruct (pass_B g start n e) as [e' u']. simpl in Hp.
  destruct ((i =? n - 1)%nat && u'); [exact Hp | now apply IH].
Qed.

Lemma source_kept_phase_C1 (e : BellmanFordAlgorithm) :
  source_kept n start e -> source_kept n start (phase_C1 g n e).
Proof.
  intros He. unfold phase_C1. apply iter_invariant; [|exact He].
  intros e' He'. apply fold_left_invariant; [|exact He'].
  intros s' x _. apply source_kept_step_C1.
Qed.

Lemma source_kept_phase_C2 (e : BellmanFordAlgorithm) :
  source_kept n start e -> source_kept n start (fst (phase_C2 g n e)).
Proof.
  intros He. unfold phase_C2.
  apply (iter_invariant (fun s => source_kept n start (fst s))); [|exact He].
  intros s He'.
  apply (fold_left_invariant (fun s => source_kept n start (fst s)));
    [|exact He'].
  intros s' x _. apply source_kept_step_C2.
Qed.

Lemma source_kept_loop_D (fuel : nat) :
  forall e q z inner e',
    source_kept n start e ->
    loop_D fuel g n e q z inner = Stopped e' \/
    loop_D fuel g n e q z inner = Drained e' ->
    source_kept n start e'.
Proof.
  induction fuel as [|fuel IH]; intros e q z inner e' He H; simpl in H.
  - destruct H; discriminate.
  - destruct q as [|from q]; simpl in H.
    + destruct inner; destruct H as [H|H]; try discriminate.
      now inversion H; subst.
    + destruct (from =? n)%nat.
      * destruct (n <? z)%nat; [|now apply IH in H].
        destruct H as [H|H]; [|discriminate]. now inversion H; subst.
      * assert (Hp : source_kept n start
                       (fst (fold_left (step_D g from) (seq 0 n) (e, q)))).
        { apply (fold_left_invariant (fun s => source_kept n start (fst s)));
            [|exact He].
          intros s' x _. apply source_kept_step_D. }
        destruct (fold_left (step_D g from) (seq 0 n) (e, q)) as [e1 q1].
        now apply IH in H.
Qed.

End Source.

(** Every strategy run on a fresh engine keeps the source. *)
Lemma source_kept_run (fuel : nat) (s : Strategy) (g : Graph) (start : nat)
  (e1 : BellmanFordAlgorithm) :
  (start < length (Nodes g))%nat ->
  run fuel s fresh g start = Returns e1 ->
  source_kept (length (Nodes g)) start e1.
Proof.
  intros Hs Hr.
  pose proof (source_kept_init (length (Nodes g)) start Hs) as Hi.
  destruct s; simpl in Hr.
  - inversion Hr; subst. unfold ContainsNegativeCycles.
    pose proof (source_kept_relax_A g _ start (length (Nodes g) - 1)
                  _ false Hi) as H.
    destruct (relax_A _ _ _ _ _) as [e u]. simpl in H.
    destruct (u && _); exact H.
  - inversion Hr; subst. unfold ContainsNegativeCycles_Sedgewick.
    now apply source_kept_loop_B.
  - inversion Hr; subst. unfold FindPathsAndNegativeCycles.
    pose proof (source_kept_phase_C2 g _ start _
                  (source_kept_phase_C1 g _ start _ Hi)) as H.
    destruct (phase_C2 _ _ _) as [e u]. exact H.
  - unfold FindPathOnly in Hr.
    destruct (loop_D _ _ _ _ _ _ _) as [| |e|e] eqn:Hl; try discriminate;
      inversion Hr; subst;
      eapply source_kept_loop_D; eauto.
Qed.

(** C7 (amended): for every graph, every source [s] below the node count
    and every strategy run on a fresh engine that completes with the solved
    flag true and with distance[s] still 0 (no relaxation ever improved the
    source), ReconstructShortestPath(graph, s, s) prints the source alone
    and returns exactly the single-element sequence [s]. *)
Theorem reconstruct_source (fuel rf : nat) (s : Strategy) (g : Graph)
  (start : nat) (e1 : BellmanFordAlgorithm) :
  (start < length (Nodes g))%nat ->
  run fuel s fresh g start = Returns e1 ->
  _solved e1 = true ->
  dist e1 start == 0 ->
  exists node,
    nth_error (Nodes g) start = Some node /\
    ReconstructShortestPath (S rf) e1 g start start
    = Returns (PathIs start start [(start, Name node)], [start]).
Proof.
  intros Hs Hr Hsolved Hd.
  destruct (source_kept_run fuel s g start e1 Hs Hr)
    as (_ & Hl1 & Hl2 & _ & Hz).
  destruct (Hz Hd) as [_ Hp].
  destruct (nth_error (Nodes g) start) as [node|] eqn:Hn;
    [|apply nth_error_None in Hn; lia].
  exists node. split; [reflexivity|].
  unfold ReconstructShortestPath. rewrite Hsolved.
  rewrite (nth_error_nth' _ 0) by (rewrite Hl1; exact Hs).
  fold (dist e1 start).
  destruct (Qeq_bool (dist e1 start) NEG_INF) eqn:E.
  { apply Qeq_bool_eq in E. rewrite Hd in E. discriminate. }
  simpl walk. rewrite (nth_error_nth' _ 0%Z) by (rewrite Hl2; exact Hs).
  fold (prev e1 start). rewrite Hp. simpl. rewrite Hn. reflexivity.
Qed.

Lemma reconstruct_source_witness :
  let e1 := fst (ContainsNegativeCycles_Sedgewick fresh graph_usd5 0) in
  (0 < length (Nodes graph_usd5))%nat /\
  run 0 StrategyB fresh graph_usd5 0 = Returns e1 /\
  _solved e1 = true /\
  dist e1 0 == 0 /\
  exists node,
    nth_error (Nodes graph_usd5) 0 = Some node /\
    ReconstructShortestPath 1 e1 graph_usd5 0 0
    = Returns (PathIs 0 0 [(0%nat, Name node)], [0%nat]).
Proof.
  intros e1.
  assert (H1 : (0 < length (Nodes graph_usd5))%nat) by (simpl; lia).
  assert (H2 : run 0 StrategyB fresh graph_usd5 0 = Returns e1)
    by reflexivity.
  assert (H3 : _solved e1 = true) by (vm_compute; reflexivity).
  assert (H4 : dist e1 0 == 0) by (vm_compute; reflexivity).
  repeat (split; [assumption|]).
  exact (reconstruct_source 0 0 StrategyB graph_usd5 0 e1 H1 H2 H3 H4).
Defined.

Lemma walk_cycle2 (rf : nat) :
  forall cur acc, (cur < 2)%nat -> walk rf [1; 0]%Z cur acc = Unfinished.
Proof.
  induction rf as [|rf IH]; intros cur acc Hc; [reflexivity|].
  destruct cur as [|[|cur]]; try lia; simpl; apply IH; simpl; lia.
Qed.

(** C7 as stated fails.  On the two-node graph whose cycle [0 -> 1 -> 0]
    has weight 1 - 2, FindPathOnly ends solved with distance[0] = -2, not
    the sentinel, and the predecessors of 0 and 1 point at each other: the
    loop of ReconstructShortestPath(graph, 0, 0) never ends.  On the
    two-node graph with the single edge [1 -> 0] of weight -1000001, which
    has no cycle at all, FindPathsAndNegativeCycles ends solved with
    distance[0] = -1 and predecessor[0] = 1, and the reconstruction returns
    [0; 0]. *)
Lemma reconstruct_source_improved :
  (exists e,
     run 50 StrategyD fresh graph_cycle2 0 = Returns e /\
     _solved e = true /\
     ~ dist e 0 == NEG_INF /\
     forall rf,
       ReconstructShortestPath rf e graph_cycle2 0 0 = Unfinished) /\
  (exists e,
     run 0 StrategyC fresh graph_heavy2 0 = Returns e /\
     _solved e = true /\
     ~ has_negative_cycle graph_heavy2 /\
     ~ dist e 0 == NEG_INF /\
     ReconstructShortestPath 5 e graph_heavy2 0 0
     = Returns (PathIs 0 0 [(0%nat, "A"%string); (0%nat, "A"%string)],
                [0%nat; 0%nat])).
Proof.
  split.
  - exists {| _shortestPath := [-2; 0]; _previousVertex := [1; 0]%Z;
              _solved := true |}.
    split; [vm_compute; reflexivity|].
    split; [reflexivity|].
    split; [apply Qeq_bool_neq; vm_compute; reflexivity|].
    intros rf. unfold ReconstructShortestPath. simpl.
    rewrite walk_cycle2 by lia. reflexivity.
  - eexists. split; [reflexivity|].
    split; [vm_compute; reflexivity|].
    split.
    + apply (feasible_no_negative_cycle _
               (dist (fst (FindPathsAndNegativeCycles fresh graph_heavy2 0)))).
      apply quiet_edges_feasible. vm_compute. reflexivity.
    + split; [apply Qeq_bool_neq; vm_compute; reflexivity|].
      vm_compute. reflexivity.
Qed.

(** ** Running a strategy again on the same engine *)

Lemma vset_same {A : Type} (i : nat) (x d : A) (v : list A) :
  nth i v d = x -> vset i x v = v.
Proof.
  revert i. induction v as [|h t IH]; intros [|j] H; simpl in *; auto.
  - now subst.
  - f_equal. now apply IH.
Qed.

(** [resize] keeps vectors that already have [n] entries, so the prologue
    changes nothing but the distance of the source. *)
Lemma init_kept (e : BellmanFordAlgorithm) (n start : nat) :
  length (_shortestPath e) = n ->
  length (_previousVertex e) = n ->
  nth start (_shortestPath e) 0 = 0 ->
  init e n start = e.
Proof.
  destruct e as [sp pv sv]. simpl. intros H1 H2 H3. unfold init. simpl.
  rewrite !resize_full by assumption. now rewrite (vset_same _ _ 0).
Qed.

Section Quiescent.

Variable g : Graph.
Variable n : nat.
Variable start : nat.
Variable e : BellmanFordAlgorithm.

Lemma relax_A_still (k : nat) :
  still_improves g n e = false -> relax_A g n k e false = (e, false).
Proof.
  intros H. destruct k as [|k]; simpl; [reflexivity|].
  unfold pass_A. now rewrite (fold_A_quiet_inv g _ e H).
Qed.

Lemma pass_B_still :
  existsb (fun p => improves_B g start e (fst p) (snd p)) (pairs n) = false ->
  pass_B g start n e = (e, false).
Proof.
  unfold pass_B. generalize (pairs n) as l.
  induction l as [|[from to] l IH]; intros H; simpl in *; auto.
  apply orb_false_iff in H. destruct H as [H1 H2]. rewrite H1. auto.
Qed.

Lemma loop_B_still (k : nat) :
  existsb (fun p => improves_B g start e (fst p) (snd p)) (pairs n) = false ->
  forall i, loop_B g start n k i e = (set_solved e, false).
Proof.
  intros H. induction k as [|k IH]; intros i; simpl; [reflexivity|].
  rewrite (pass_B_still H), andb_false_r. apply IH.
Qed.

Lemma pass_C1_still :
  existsb (fun p => improves_edge g e (fst p) (snd p)) (pairs n) = false ->
  fold_left (step_C1 g) (pairs n) e = e.
Proof.
  generalize (pairs n) as l.
  induction l as [|[from to] l IH]; intros H; simpl in *; auto.
  apply orb_false_iff in H. destruct H as [H1 H2]. rewrite H1. auto.
Qed.

Lemma phase_C1_still :
  existsb (fun p => improves_edge g e (fst p) (snd p)) (pairs n) = false ->
  phase_C1 g n e = e.
Proof.
  intros H. unfold phase_C1.
  induction (n - 1)%nat as [|k IH]; simpl; [reflexivity|].
  rewrite IH. now apply pass_C1_still.
Qed.

Lemma phase_C2_still :
  existsb (fun p => improves_edge g e (fst p) (snd p)) (pairs n) = false ->
  phase_C2 g n e = (e, false).
Proof.
  intros H. unfold phase_C2.
  induction (n - 1)%nat as [|k IH]; simpl; [reflexivity|].
  rewrite IH. now apply fold_C2_quiet_inv.
Qed.

Lemma relax_D_still (from : nat) (q : list nat) :
  (from < n)%nat ->
  existsb (fun p => improves_edge g e (fst p) (snd p)) (pairs n) = false ->
  fold_left (step_D g from) (seq 0 n) (e, q) = (e, q).
Proof.
  intros Hf H.
  assert (Hl : forall to, In to (seq 0 n) ->
                          improves_edge g e from to = false).
  { intros to Hto. apply in_seq in Hto.
    apply (existsb_false _ _ H (from, to)). apply in_pairs. lia. }
  clear H. induction (seq 0 n) as [|to l IH]; simpl; [reflexivity|].
  pose proof (Hl to (or_introl eq_refl)) as Hto.
  unfold improves_edge, improves in Hto. unfold step_D at 2. simpl.
  destruct (Qeq_bool (weight g from to) INF); simpl in Hto.
  - apply IH. intros to' H'. apply Hl. now right.
  - rewrite Hto. apply IH. intros to' H'. apply Hl. now right.
Qed.

(** With the sentinel alone in the queue, the loop only counts rounds. *)
Lemma loop_D_spin (r : nat) :
  forall z fuel inner,
    (z + r = n + 1)%nat -> (r + 1 <= fuel)%nat ->
    loop_D fuel g n e [n] z inner = Stopped (set_solved e).
Proof.
  induction r as [|r IH]; intros z [|fuel] inner Hz Hf; try lia; simpl;
    rewrite Nat.eqb_refl.
  - replace (n <? z)%nat with true by (symmetry; apply Nat.ltb_lt; lia).
    reflexivity.
  - replace (n <? z)%nat with false by (symmetry; apply Nat.ltb_ge; lia).
    apply IH; lia.
Qed.

Lemma loop_D_still (fuel : nat) :
  (start < n)%nat -> (n + 3 <= fuel)%nat ->
  existsb (fun p => improves_edge g e (fst p) (snd p)) (pairs n) = false ->
  loop_D fuel g n e [start; n] 0 false = Stopped (set_solved e).
Proof.
  intros Hs Hf H. destruct fuel as [|fuel]; [lia|]. simpl.
  replace (start =? n)%nat with false by (symmetry; apply Nat.eqb_neq; lia).
  rewrite (relax_D_still start [n] Hs H).
  apply (loop_D_spin (n + 1)); lia.
Qed.

End Quiescent.

(** C9 (amended): a second run on the same engine does not start from
    fresh arrays, since [resize] keeps the entries of the first run.  For
    every graph, source below the node count and strategy, when the first
    run (on a fresh engine) left distance[source] at 0 and arrays on which
    no relaxation test of the strategy succeeds, running the strategy a
    second time on that engine, same graph and same source, yields distance
    and predecessor arrays identical to those of the first run. *)
Theorem rerun_quiescent (fuel : nat) (s : Strategy) (g : Graph) (start : nat)
  (e1 : BellmanFordAlgorithm) :
  (start < length (Nodes g))%nat ->
  (length (Nodes g) + 3 <= fuel)%nat ->
  run fuel s fresh g start = Returns e1 ->
  dist e1 start == 0 ->
  quiescent s g start e1 = true ->
  exists e2,
    run fuel s e1 g start = Returns e2 /\
    _shortestPath e2 = _shortestPath e1 /\
    _previousVertex e2 = _previousVertex e1.
Proof.
  intros Hs Hf Hr Hd Hq.
  destruct (source_kept_run fuel s g start e1 Hs Hr)
    as (_ & Hl1 & Hl2 & _ & Hz).
  destruct (Hz Hd) as [H0 _].
  pose proof (init_kept e1 _ start Hl1 Hl2 H0) as Hi.
  exists (set_solved e1). split; [|split; reflexivity].
  unfold quiescent in Hq. apply negb_true_iff in Hq.
  destruct s; simpl.
  - unfold ContainsNegativeCycles. rewrite Hi.
    now rewrite (relax_A_still g _ e1 _ Hq).
  - unfold ContainsNegativeCycles_Sedgewick. rewrite Hi.
    now rewrite (loop_B_still g _ start e1 _ Hq).
  - unfold FindPathsAndNegativeCycles. rewrite Hi.
    now rewrite (phase_C1_still g _ e1 Hq), (phase_C2_still g _ e1 Hq).
  - unfold FindPathOnly. rewrite Hi.
    now rewrite (loop_D_still g _ start e1 fuel Hs Hf Hq).
Qed.

Lemma rerun_quiescent_witness :
  let e1 := match FindPathOnly 40 fresh graph_usd5 0 with
            | Stopped e => e
            | _ => fresh
            end in
  (0 < length (Nodes graph_usd5))%nat /\
  (length (Nodes graph_usd5) + 3 <= 40)%nat /\
  run 40 StrategyD fresh graph_usd5 0 = Returns e1 /\
  dist e1 0 == 0 /\
  quiescent StrategyD graph_usd5 0 e1 = true /\
  exists e2,
    run 40 StrategyD e1 graph_usd5 0 = Returns e2 /\
    _shortestPath e2 = _shortestPath e1 /\
    _previousVertex e2 = _previousVertex e1.
Proof.
  intros e1.
  assert (H1 : (0 < length (Nodes graph_usd5))%nat) by (simpl; lia).
  assert (H2 : (length (Nodes graph_usd5) + 3 <= 40)%nat) by (simpl; lia).
  assert (H3 : run 40 StrategyD fresh graph_usd5 0 = Returns e1)
    by (vm_compute; reflexivity).
  assert (H4 : dist e1 0 == 0) by (vm_compute; reflexivity).
  assert (H5 : quiescent StrategyD graph_usd5 0 e1 = true)
    by (vm_compute; reflexivity).
  repeat (split; [assumption|]).
  exact (rerun_quiescent 40 StrategyD graph_usd5 0 e1 H1 H2 H3 H4 H5).
Defined.

(** C9 as stated fails: on the eight-node graph of the driver, from source
    0, a second run of ContainsNegativeCycles on the same engine lowers
    distance[2] from -1 to -5, and a second run of
    FindPathsAndNegativeCycles turns distance[3] from the sentinel into
    -1000006 and predecessor[3] from -2 into 4. *)
Lemma rerun_differs :
  let a1 := fst (ContainsNegativeCycles fresh graph_cycle8 0) in
  let a2 := fst (ContainsNegativeCycles a1 graph_cycle8 0) in
  let c1 := fst (FindPathsAndNegativeCycles fresh graph_cycle8 0) in
  let c2 := fst (FindPathsAndNegativeCycles c1 graph_cycle8 0) in
  (dist a1 2 == -1 /\ dist a2 2 == -5) /\
  (dist c1 3 == NEG_INF /\ dist c2 3 == -1000006) /\
  (prev c1 3 = (-2)%Z /\ prev c2 3 = 4%Z).
Proof.
  repeat split; vm_compute; reflexivity.
Qed.

(** ** Reachability *)

Lemma closed_reachable (g : Graph) (inside : nat -> bool) (s v : nat) :
  closed_under_edges g inside = true ->
  inside s = true ->
  reachable g s v -> inside v = true.
Proof.
  intros Hc Hs Hr. induction Hr as [|u v _ IH He]; [exact Hs|].
  unfold closed_under_edges in Hc. rewrite forallb_forall in Hc.
  pose proof (edge_in_pairs g u v He) as [Hin _].
  specialize (Hc _ Hin). simpl in Hc. rewrite IH, He in Hc. exact Hc.
Qed.

Lemma reachable_trans (g : Graph) (s c v : nat) :
  reachable g s c -> reachable g c v -> reachable g s v.
Proof.
  intros H1 H2. induction H2 as [|u v _ IH He]; [exact H1|].
  now apply (reach_edge g s u v).
Qed.

Lemma contaminated_reachable (g : Graph) (s v : nat) :
  contaminated g s v -> reachable g s v /\ has_negative_cycle g.
Proof.
  intros (c & p & H1 & Hc & H2). split.
  - now apply (reachable_trans g s c v).
  - now exists c, p.
Qed.

(** A graph on which some engine is quiescent for the edge test has no
    negative cycle. *)
Lemma quiescent_no_negative_cycle (g : Graph) (start : nat)
  (e : BellmanFordAlgorithm) :
  quiescent StrategyC g start e = true -> ~ has_negative_cycle g.
Proof.
  intros H. apply (feasible_no_negative_cycle g (dist e)).
  apply quiet_edges_feasible. now apply negb_true_iff in H.
Qed.

(** ** The strategies on graphs with unreached nodes and fractions *)

(** C1 fails on the code.  On the three-node graph with the single edge
    [0 -> 1] of weight -5.5 (well formed, no negative cycle) and source 0,
    all four strategies end solved and report no cycle, yet strategy A
    leaves distance[2] = 999994.5 where C and D leave it at 1000000
    (node 2 has no incoming edge: A relaxed it through the missing-edge
    sentinel), and strategy B leaves distance[1] = -5 where A, C and D
    leave -5.5 (B truncates the candidate to an int).  On the six-node
    graph of the driver, from source 4, strategy B leaves every distance at
    0 and the path to node 2 comes out as [4; 2], where strategy C leaves
    distance[3] = 0.36 and the path [4; 3; 5; 1; 2] that the driver
    expects. *)
Theorem strategies_disagree :
  (let g := graph_isolated3 in
   let a := ContainsNegativeCycles fresh g 0 in
   let b := ContainsNegativeCycles_Sedgewick fresh g 0 in
   let c := FindPathsAndNegativeCycles fresh g 0 in
   wf_graph g /\ ~ has_negative_cycle g /\
   (snd a = false /\ snd b = false /\ snd c = false) /\
   (_solved (fst a) = true /\ _solved (fst b) = true /\
    _solved (fst c) = true) /\
   (dist (fst a) 1 == -5.5 /\ dist (fst a) 2 == 999994.5) /\
   (dist (fst b) 1 == -5 /\ dist (fst b) 2 == 1000000) /\
   (dist (fst c) 1 == -5.5 /\ dist (fst c) 2 == 1000000) /\
   exists d,
     FindPathOnly 20 fresh g 0 = Stopped d /\
     dist d 1 == -5.5 /\ dist d 2 == 1000000) /\
  (let g := graph_sedgewick6 in
   let b := ContainsNegativeCycles_Sedgewick fresh g 4 in
   let c := FindPathsAndNegativeCycles fresh g 4 in
   wf_graph g /\ ~ has_negative_cycle g /\
   (snd b = false /\ snd c = false) /\
   (dist (fst b) 3 == 0 /\ dist (fst c) 3 == 0.36) /\
   nth 2 (paths_from 6 (fst b) g 4) Undefined = Returns [4; 2]%nat /\
   nth 2 (paths_from 6 (fst c) g 4) Undefined
   = Returns [4; 3; 5; 1; 2]%nat).
Proof.
  split; cbv zeta.
  - split; [split; [reflexivity | repeat constructor]|].
    split; [apply (quiescent_no_negative_cycle _ 0
                     (fst (FindPathsAndNegativeCycles fresh
                             graph_isolated3 0)));
            vm_compute; reflexivity|].
    repeat (split; [repeat split; vm_compute; reflexivity|]).
    eexists. split; [vm_compute; reflexivity|].
    split; vm_compute; reflexivity.
  - split; [split; [reflexivity | repeat constructor]|].
    split; [apply (quiescent_no_negative_cycle _ 4
                     (fst (FindPathsAndNegativeCycles fresh
                             graph_sedgewick6 4)));
            vm_compute; reflexivity|].
    repeat split; vm_compute; reflexivity.
Qed.

(** C3 fails on the code.  On the three-node graph whose negative cycle
    [1 -> 2 -> 1] cannot be reached from source 0, strategy C reports a
    cycle and sets the distances of nodes 1 and 2 to the sentinel, although
    neither is reachable from the source at all.  On the two-node graph
    with the single edge [0 -> 1] of weight -1000000, which has no cycle,
    the distance of node 1 equals the sentinel while strategy C reports no
    cycle. *)
Theorem marks_outside_contamination :
  (let g := graph_far_cycle3 in
   let r := FindPathsAndNegativeCycles fresh g 0 in
   snd r = true /\
   dist (fst r) 1 == NEG_INF /\ dist (fst r) 2 == NEG_INF /\
   ~ reachable g 0 1 /\ ~ reachable g 0 2 /\
   ~ contaminated g 0 1 /\ ~ contaminated g 0 2 /\
   ReconstructShortestPath 3 (fst r) g 0 2
   = Returns (InfinitePaths 0 2, [])) /\
  (let g := graph_collision2 in
   let r := FindPathsAndNegativeCycles fresh g 0 in
   snd r = false /\
   dist (fst r) 1 == NEG_INF /\
   ~ has_negative_cycle g /\
   ~ contaminated g 0 1).
Proof.
  assert (Hn : forall v, (v =? 0)%nat = false ->
                         ~ reachable graph_far_cycle3 0 v).
  { intros v Hv Hr.
    apply (closed_reachable _ (fun x => (x =? 0)%nat)) in Hr;
      [congruence | vm_compute; reflexivity | reflexivity]. }
  assert (Hc : ~ has_negative_cycle graph_collision2).
  { apply (quiescent_no_negative_cycle _ 0
             (fst (FindPathsAndNegativeCycles fresh graph_collision2 0))).
    vm_compute. reflexivity. }
  split; cbv zeta.
  - repeat split; try (vm_compute; reflexivity).
    + now apply Hn.
    + now apply Hn.
    + intros H. apply contaminated_reachable in H. now apply (Hn 1%nat).
    + intros H. apply contaminated_reachable in H. now apply (Hn 2%nat).
  - repeat split; try (vm_compute; reflexivity); [exact Hc|].
    intros H. apply contaminated_reachable in H. tauto.
Qed.

(** C8 fails on the code.  On the three-node graph with the single edge
    [0 -> 1] of weight -5.5 (no negative cycle, node 2 unreachable from
    source 0), strategy A ends solved with predecessor[2] = 1, and the
    reconstruction for finish 2 returns [0; 1; 2], a sequence that ends at
    finish.  On the three-node graph with the single edge [1 -> 2] of
    weight -1, strategy C ends solved with predecessor[2] = 1, and the
    reconstruction for finish 2 returns [0; 2]. *)
Theorem unreachable_gets_path :
  (let g := graph_isolated3 in
   let r := ContainsNegativeCycles fresh g 0 in
   snd r = false /\ _solved (fst r) = true /\
   ~ has_negative_cycle g /\ ~ reachable g 0 2 /\
   prev (fst r) 2 = 1%Z /\
   ReconstructShortestPath 5 (fst r) g 0 2
   = Returns (PathIs 0 2 [(0%nat, "A"%string); (1%nat, "B"%string);
                          (2%nat, "C"%string)],
              [0%nat; 1%nat; 2%nat])) /\
  (let g := graph_far_edge3 in
   let r := FindPathsAndNegativeCycles fresh g 0 in
   snd r = false /\ _solved (fst r) = true /\
   ~ has_negative_cycle g /\ ~ reachable g 0 2 /\
   prev (fst r) 2 = 1%Z /\
   ReconstructShortestPath 5 (fst r) g 0 2
   = Returns (PathIs 0 2 [(0%nat, "A"%string); (2%nat, "C"%string)],
              [0%nat; 2%nat])).
Proof.
  split; cbv zeta.
  - repeat split; try (vm_compute; reflexivity).
    + apply (quiescent_no_negative_cycle _ 0
               (fst (FindPathsAndNegativeCycles fresh graph_isolated3 0))).
      vm_compute. reflexivity.
    + intros Hr.
      apply (closed_reachable _ (fun x => (x <? 2)%nat)) in Hr;
        [discriminate | vm_compute; reflexivity | reflexivity].
  - repeat split; try (vm_compute; reflexivity).
    + apply (quiescent_no_negative_cycle _ 0
               (fst (FindPathsAndNegativeCycles fresh graph_far_edge3 0))).
      vm_compute. reflexivity.
    + intros Hr.
      apply (closed_reachable _ (fun x => (x =? 0)%nat)) in Hr;
        [discriminate | vm_compute; reflexivity | reflexivity].
Qed.

(** ** Strategies B and D write reachable nodes only *)

Section Reached.

Variable g : Graph.
Variable start : nat.



Lemma reached_only_solved (e : BellmanFordAlgorithm) :
  reached_only g start e -> reached_only g start (set_solved e).
Proof. intros H. exact H. Qed.






End Reached.



(** ** The solved flag *)

Lemma solved_assign (e : BellmanFordAlgorithm) (to : nat) (d : Q) (p : Z) :
  _solved (assign e to d p) = _solved e.
Proof. reflexivity. Qed.

Lemma solved_pass_A (g : Graph) (n : nat) (e : BellmanFordAlgorithm) :
  _solved (fst (pass_A g n e)) = _solved e.
Proof.
  unfold pass_A.
  apply (fold_left_invariant (fun s => _solved (fst s) = _solved e));
    [|reflexivity].
  intros [e' u] [from to] _ H. unfold step_A. simpl in *.
  now destruct (improves g e' from to).
Qed.

Lemma solved_relax_A (g : Graph) (n k : nat) :
  forall e u, _solved (fst (relax_A g n k e u)) = _solved e.
Proof.
  induction k as [|k IH]; intros e u; simpl; [reflexivity|].
  pose proof (solved_pass_A g n e) as Hp.
  destruct (pass_A g n e) as [e' u']. simpl in Hp.
  destruct u'; [now rewrite IH | exact Hp].
Qed.

Lemma solved_pass_B (g : Graph) (start n : nat) (e : BellmanFordAlgorithm) :
  _solved (fst (pass_B g start n e)) = _solved e.
Proof.
  unfold pass_B.
  apply (fold_left_invariant (fun s => _solved (fst s) = _solved e));
    [|reflexivity].
  intros [e' u] [from to] _ H. unfold step_B. simpl in *.
  now destruct (improves_B g start e' from to).
Qed.

Lemma solved_loop_B (g : Graph) (start n k : nat) :
  forall i e,
    _solved (fst (loop_B g start n k i e))
    = negb (snd (loop_B g start n k i e)) || _solved e.
Proof.
  induction k as [|k IH]; intros i e; simpl; [reflexivity|].
  pose proof (solved_pass_B g start n e) as Hp.
  destruct (pass_B g start n e) as [e' u']. simpl in Hp.
  destruct ((i =? n - 1)%nat && u'); simpl; [exact Hp|].
  now rewrite IH, Hp.
Qed.

(** X3: ContainsNegativeCycles and ContainsNegativeCycles_Sedgewick set
    the solved flag exactly when they answer false: after a call on any
    engine, the flag is true if the answer is "no cycle", and is whatever
    it was before the call if the answer is "cycle found".  On a fresh
    engine the flag is therefore the negation of the answer. *)
Theorem solved_unless_cycle (e : BellmanFordAlgorithm) (g : Graph)
  (start : nat) :
  let a := ContainsNegativeCycles e g start in
  let b := ContainsNegativeCycles_Sedgewick e g start in
  _solved (fst a) = negb (snd a) || _solved e /\
  _solved (fst b) = negb (snd b) || _solved e.
Proof.
  cbv zeta. split.
  - unfold ContainsNegativeCycles.
    pose proof (solved_relax_A g (length (Nodes g)) (length (Nodes g) - 1)
                  (init e (length (Nodes g)) start) false) as H.
    destruct (relax_A _ _ _ _ _) as [e1 u]. simpl in H.
    destruct (u && still_improves g (length (Nodes g)) e1); simpl;
      [exact H | reflexivity].
  - unfold ContainsNegativeCycles_Sedgewick. now rewrite solved_loop_B.
Qed.

(** ** What the strategies leave in the predecessor vector *)

Section PredRange.

Variable g : Graph.
Variable n : nat.
Variable s : Strategy.

Lemma pred_in_range_init (start : nat) :
  pred_in_range s n (init fresh n start).
Proof.
  unfold pred_in_range, init, fresh. cbn [_shortestPath _previousVertex].
  rewrite !resize_nil, length_vset, !repeat_length.
  split; [reflexivity | split; [reflexivity|]].
  apply Forall_forall. intros p Hp. apply repeat_spec in Hp. now left.
Qed.

Lemma pred_in_range_assign (e : BellmanFordAlgorithm) (to : nat) (d : Q)
  (p : Z) :
  pred_in_range s n e -> pred_entry s n p ->
  pred_in_range s n (assign e to d p).
Proof.
  intros (H1 & H2 & H) Hp. unfold pred_in_range. simpl.
  rewrite !length_vset. split; [exact H1 | split; [exact H2|]].
  now apply Forall_vset.
Qed.

Lemma pred_entry_node (from : nat) :
  (from < n)%nat -> pred_entry s n (Z.of_nat from).
Proof. intros H. right. left. lia. Qed.

Lemma pred_in_range_pass_A (e : BellmanFordAlgorithm) :
  pred_in_range s n e -> pred_in_range s n (fst (pass_A g n e)).
Proof.
  intros He. unfold pass_A.
  apply (fold_left_invariant (fun st => pred_in_range s n (fst st)));
    [|exact He].
  intros [e' u] [from to] Hin He'. apply in_pairs in Hin.
  unfold step_A. simpl in *.
  destruct (improves g e' from to); simpl; [|exact He'].
  apply pred_in_range_assign; [exact He' | apply pred_entry_node; lia].
Qed.

Lemma pred_in_range_relax_A (k : nat) :
  forall e u,
    pred_in_range s n e -> pred_in_range s n (fst (relax_A g n k e u)).
Proof.
  induction k as [|k IH]; intros e u He; simpl; [exact He|].
  pose proof (pred_in_range_pass_A e He) as Hp.
  destruct (pass_A g n e) as [e' u']. simpl in Hp.
  destruct u'; [now apply IH | exact Hp].
Qed.

Lemma pred_in_range_pass_B (start : nat) (e : BellmanFordAlgorithm) :
  pred_in_range s n e -> pred_in_range s n (fst (pass_B g start n e)).
Proof.
  intros He. unfold pass_B.
  apply (fold_left_invariant (fun st => pred_in_range s n (fst st)));
    [|exact He].
  intros [e' u] [from to] Hin He'. apply in_pairs in Hin.
  unfold step_B. simpl in *.
  destruct (improves_B g start e' from to); simpl; [|exact He'].
  apply pred_in_range_assign; [exact He' | apply pred_entry_node; lia].
Qed.

Lemma pred_in_range_loop_B (start k : nat) :
  forall i e,
    pred_in_range s n e ->
    pred_in_range s n (fst (loop_B g start n k i e)).
Proof.
  induction k as [|k IH]; intros i e He; simpl; [exact He|].
  pose proof (pred_in_range_pass_B start e He) as Hp.
  destruct (pass_B g start n e) as [e' u']. simpl in Hp.
  destruct ((i =? n - 1)%nat && u'); [exact Hp | now apply IH].
Qed.

Lemma pred_in_range_phase_C1 (e : BellmanFordAlgorithm) :
  pred_in_range s n e -> pred_in_range s n (phase_C1 g n e).
Proof.
  intros He. unfold phase_C1. apply iter_invariant; [|exact He].
  intros e' He'. apply fold_left_invariant; [|exact He'].
  intros e2 [from to] Hin He2. apply in_pairs in Hin. unfold step_C1.
  destruct (improves_edge g e2 from to); [|exact He2].
  apply pred_in_range_assign; [exact He2 | apply pred_entry_node; lia].
Qed.

Lemma pred_in_range_phase_C2 (e : BellmanFordAlgorithm) :
  s = StrategyC ->
  pred_in_range s n e -> pred_in_range s n (fst (phase_C2 g n e)).
Proof.
  intros Hs He. unfold phase_C2.
  apply (iter_invariant (fun st => pred_in_range s n (fst st))); [|exact He].
  intros st Hst.
  apply (fold_left_invariant (fun st => pred_in_range s n (fst st)));
    [|exact Hst].
  intros [e' u] [from to] _ He'. unfold step_C2. simpl in *.
  destruct (improves_edge g e' from to); simpl; [|exact He'].
  apply pred_in_range_assign; [exact He'|]. right. right. now split.
Qed.

Lemma pred_in_range_relax_D (from : nat) (l : list nat) :
  (from < n)%nat -> Forall (fun to => (to <= n)%nat) l ->
  forall e q,
    pred_in_range s n e -> queue_in_range n q ->
    pred_in_range s n (fst (fold_left (step_D g from) l (e, q))) /\
    queue_in_range n (snd (fold_left (step_D g from) l (e, q))).
Proof.
  intros Hf. induction l as [|to l IH]; intros Hl e q He Hq; simpl;
    [now split|].
  inversion Hl as [|? ? Hto Hl']; subst.
  unfold step_D at 2 4. simpl.
  destruct (Qeq_bool (weight g from to) INF); [now apply IH|].
  destruct (Qgtb (dist e to) (dist e from + weight g from to));
    [|now apply IH].
  apply IH; [exact Hl' | |].
  - apply pred_in_range_assign; [exact He | now apply pred_entry_node].
  - apply Forall_app. split; [exact Hq | now constructor].
Qed.

Lemma pred_in_range_loop_D (fuel : nat) :
  forall e q z inner e',
    pred_in_range s n e -> queue_in_range n q ->
    loop_D fuel g n e q z inner = Stopped e' \/
    loop_D fuel g n e q z inner = Drained e' ->
    pred_in_range s n e'.
Proof.
  induction fuel as [|fuel IH]; intros e q z inner e' He Hq H; simpl in H.
  - destruct H; discriminate.
  - destruct q as [|from q]; simpl in H.
    + destruct inner; destruct H as [H|H]; try discriminate.
      now inversion H; subst.
    + inversion Hq as [|? ? Hfrom Hq']; subst.
      destruct (from =? n)%nat eqn:Hs.
      * destruct (n <? z)%nat.
        -- destruct H as [H|H]; [|discriminate]. now inversion H; subst.
        -- apply IH in H; [exact H | exact He |].
           apply Forall_app. split; [exact Hq'|]. now constructor.
      * apply Nat.eqb_neq in Hs.
        destruct (pred_in_range_relax_D from (seq 0 n)) with (e := e) (q := q)
          as [He1 Hq1]; auto; try lia.
        { apply Forall_forall. intros x Hx. apply in_seq in Hx. lia. }
        destruct (fold_left (step_D g from) (seq 0 n) (e, q)) as [e1 q1].
        now apply IH in H.
Qed.

End PredRange.

Lemma pred_in_range_run (fuel : nat) (s : Strategy) (g : Graph) (start : nat)
  (e1 : BellmanFordAlgorithm) :
  (start < length (Nodes g))%nat ->
  run fuel s fresh g start = Returns e1 ->
  pred_in_range s (length (Nodes g)) e1.
Proof.
  intros Hs Hr.
  pose proof (pred_in_range_init (length (Nodes g)) s start) as Hi.
  destruct s; simpl in Hr.
  - inversion Hr; subst. unfold ContainsNegativeCycles.
    pose proof (pred_in_range_relax_A g _ StrategyA
                  (length (Nodes g) - 1) _ false Hi) as H.
    destruct (relax_A _ _ _ _ _) as [e u]. simpl in H.
    destruct (u && _); exact H.
  - inversion Hr; subst. unfold ContainsNegativeCycles_Sedgewick.
    now apply pred_in_range_loop_B.
  - inversion Hr; subst. unfold FindPathsAndNegativeCycles.
    pose proof (pred_in_range_phase_C2 g _ StrategyC _ eq_refl
                  (pred_in_range_phase_C1 g _ StrategyC _ Hi)) as H.
    destruct (phase_C2 _ _ _) as [e u]. exact H.
  - unfold FindPathOnly in Hr.
    destruct (loop_D _ _ _ _ _ _ _) as [| |e|e] eqn:Hl; try discriminate;
      inversion Hr; subst;
      eapply (pred_in_range_loop_D g _ StrategyD); eauto;
      (constructor; [lia | constructor; [lia | constructor]]).
Qed.

(** X4: whatever the graph, a strategy run on a fresh engine from a source
    below the node count leaves both vectors with exactly one entry per
    node, and every predecessor entry is -1 or the index of a node; the
    cycle sentinel -2 is only ever written by FindPathsAndNegativeCycles. *)
Theorem predecessors_in_range (fuel : nat) (s : Strategy) (g : Graph)
  (start : nat) (e1 : BellmanFordAlgorithm) :
  (start < length (Nodes g))%nat ->
  run fuel s fresh g start = Returns e1 ->
  length (_shortestPath e1) = length (Nodes g) /\
  length (_previousVertex e1) = length (Nodes g) /\
  forall v,
    (v < length (Nodes g))%nat ->
    prev e1 v = (-1)%Z \/
    (0 <= prev e1 v < Z.of_nat (length (Nodes g)))%Z \/
    (s = StrategyC /\ prev e1 v = (-2)%Z).
Proof.
  intros Hs Hr. destruct (pred_in_range_run fuel s g start e1 Hs Hr)
    as (H1 & H2 & H).
  split; [exact H1 | split; [exact H2|]].
  intros v Hv. rewrite Forall_forall in H. apply H.
  unfold prev. apply nth_In. now rewrite H2.
Qed.

Lemma predecessors_in_range_witness :
  let e1 := fst (FindPathsAndNegativeCycles fresh graph_cycle8 0) in
  (0 < length (Nodes graph_cycle8))%nat /\
  run 0 StrategyC fresh graph_cycle8 0 = Returns e1 /\
  length (_shortestPath e1) = length (Nodes graph_cycle8) /\
  length (_previousVertex e1) = length (Nodes graph_cycle8) /\
  forall v,
    (v < length (Nodes graph_cycle8))%nat ->
    prev e1 v = (-1)%Z \/
    (0 <= prev e1 v < Z.of_nat (length (Nodes graph_cycle8)))%Z \/
    (StrategyC = StrategyC /\ prev e1 v = (-2)%Z).
Proof.
  intros e1.
  assert (H1 : (0 < length (Nodes graph_cycle8))%nat) by (simpl; lia).
  assert (H2 : run 0 StrategyC fresh graph_cycle8 0 = Returns e1)
    by reflexivity.
  repeat (split; [assumption|]).
  exact (predecessors_in_range 0 StrategyC graph_cycle8 0 e1 H1 H2).
Defined.

(** ** Reconstruction stays inside the vectors *)

Lemma walk_in_range (s : Strategy) (n : nat) (pv : list Z) :
  length pv = n -> Forall (pred_entry s n) pv ->
  forall fuel cur acc,
    (cur < n)%nat -> Forall (fun v => (v < n)%nat) acc ->
    match walk fuel pv cur acc with
    | Returns l => Forall (fun v => (v < n)%nat) l
    | Undefined => False
    | Unfinished => True
    end.
Proof.
  intros Hl Hp. induction fuel as [|fuel IH]; intros cur acc Hc Ha; simpl;
    [exact I|].
  destruct (nth_error pv cur) as [p|] eqn:Hn;
    [|apply nth_error_None in Hn; lia].
  apply nth_error_In in Hn. rewrite Forall_forall in Hp.
  specialize (Hp p Hn).
  destruct ((p =? -1)%Z || (p =? -2)%Z) eqn:Hstop; [exact Ha|].
  apply orb_false_iff in Hstop. destruct Hstop as [Hm1 Hm2].
  apply Z.eqb_neq in Hm1, Hm2.
  destruct Hp as [Hp | [Hp | [_ Hp]]]; try contradiction.
  replace (p <? 0)%Z with false by (symmetry; apply Z.ltb_ge; lia).
  apply IH; [lia|]. apply Forall_app. split; [exact Ha | now constructor].
Qed.

Lemma tokens_of_in_range (g : Graph) (path : list nat) :
  Forall (fun v => (v < length (Nodes g))%nat) path ->
  tokens_of g path <> None.
Proof.
  induction path as [|v path IH]; intros H; simpl; [discriminate|].
  inversion H as [|? ? Hv Hp]; subst.
  destruct (nth_error (Nodes g) v) eqn:Hn;
    [|apply nth_error_None in Hn; lia].
  destruct (tokens_of g path); [discriminate | now apply IH].
Qed.

(** X5: after any strategy run on a fresh engine from a source below the
    node count, ReconstructShortestPath for a finish below the node count
    never reads outside a vector: the distance of finish, every
    predecessor the walk visits and every node name it prints exist. *)
Theorem reconstruct_in_bounds (fuel rf : nat) (s : Strategy) (g : Graph)
  (start finish : nat) (e1 : BellmanFordAlgorithm) :
  (start < length (Nodes g))%nat ->
  (finish < length (Nodes g))%nat ->
  run fuel s fresh g start = Returns e1 ->
  ReconstructShortestPath rf e1 g start finish <> Undefined.
Proof.
  intros Hs Hf Hr.
  destruct (pred_in_range_run fuel s g start e1 Hs Hr) as (H1 & H2 & H).
  unfold ReconstructShortestPath.
  destruct (_solved e1); [|discriminate].
  destruct (nth_error (_shortestPath e1) finish) eqn:Hn;
    [|apply nth_error_None in Hn; lia].
  destruct (Qeq_bool q NEG_INF); [discriminate|].
  pose proof (walk_in_range s _ _ H2 H rf finish [] Hf (Forall_nil _)) as Hw.
  destruct (walk rf (_previousVertex e1) finish []) as [l| |];
    [|contradiction|discriminate].
  destruct (tokens_of g (rev (l ++ [start]))) eqn:Ht; [discriminate|].
  exfalso. revert Ht. apply tokens_of_in_range.
  apply Forall_rev, Forall_app. split; [exact Hw | now constructor].
Qed.

Lemma reconstruct_in_bounds_witness :
  let e1 := fst (ContainsNegativeCycles fresh graph_isolated3 0) in
  (0 < length (Nodes graph_isolated3))%nat /\
  (2 < length (Nodes graph_isolated3))%nat /\
  run 0 StrategyA fresh graph_isolated3 0 = Returns e1 /\
  ReconstructShortestPath 5 e1 graph_isolated3 0 2 <> Undefined.
Proof.
  intros e1.
  assert (H1 : (0 < length (Nodes graph_isolated3))%nat) by (simpl; lia).
  assert (H2 : (2 < length (Nodes graph_isolated3))%nat) by (simpl; lia).
  assert (H3 : run 0 StrategyA fresh graph_isolated3 0 = Returns e1)
    by reflexivity.
  repeat (split; [assumption|]).
  exact (reconstruct_in_bounds 0 5 StrategyA graph_isolated3 0 2 e1
           H1 H2 H3).
Defined.

(** ** Strategy B keeps whole numbers *)

Lemma Forall_resize {A : Type} (P : A -> Prop) (n : nat) (x : A)
  (v : list A) :
  P x -> Forall P v -> Forall P (resize n x v).
Proof.
  intros Hx Hv. unfold resize. apply Forall_app. split.
  - rewrite <- (firstn_skipn n v) in Hv. now apply Forall_app in Hv.
  - apply Forall_forall. intros d Hd. apply repeat_spec in Hd. now subst.
Qed.

Lemma whole_pass_B (g : Graph) (start n : nat) (e : BellmanFordAlgorithm) :
  Forall whole (_shortestPath e) ->
  Forall whole (_shortestPath (fst (pass_B g start n e))).
Proof.
  intros He. unfold pass_B.
  apply (fold_left_invariant
           (fun st => Forall whole (_shortestPath (fst st)))); [|exact He].
  intros [e' u] [from to] _ He'. unfold step_B. simpl in *.
  destruct (improves_B g start e' from to); simpl; [|exact He'].
  apply Forall_vset; [reflexivity | exact He'].
Qed.

Lemma whole_loop_B (g : Graph) (start n k : nat) :
  forall i e,
    Forall whole (_shortestPath e) ->
    Forall whole (_shortestPath (fst (loop_B g start n k i e))).
Proof.
  induction k as [|k IH]; intros i e He; simpl; [exact He|].
  pose proof (whole_pass_B g start n e He) as Hp.
  destruct (pass_B g start n e) as [e' u']. simpl in Hp.
  destruct ((i =? n - 1)%nat && u'); [exact Hp | now apply IH].
Qed.

(** X6: ContainsNegativeCycles_Sedgewick only ever stores whole numbers:
    run on an engine whose distances are whole (a fresh one in
    particular), every distance it leaves is a whole number, whatever
    fractions the weights of the graph carry. *)
Theorem Sedgewick_distances_whole (e : BellmanFordAlgorithm) (g : Graph)
  (start : nat) :
  Forall whole (_shortestPath e) ->
  Forall whole
    (_shortestPath (fst (ContainsNegativeCycles_Sedgewick e g start))).
Proof.
  intros He. unfold ContainsNegativeCycles_Sedgewick.
  apply whole_loop_B. unfold init. simpl.
  apply Forall_vset; [reflexivity|]. now apply Forall_resize.
Qed.

Lemma Sedgewick_distances_whole_witness :
  Forall whole (_shortestPath fresh) /\
  Forall whole
    (_shortestPath
       (fst (ContainsNegativeCycles_Sedgewick fresh graph_sedgewick6 4))).
Proof.
  split; [constructor | apply Sedgewick_distances_whole; constructor].
Defined.

(** ** What ReconstructShortestPath returns *)

Lemma walk_chain (pv : list Z) (fuel : nat) :
  forall cur acc l,
    walk fuel pv cur acc = Returns l ->
    exists chain, pred_chain pv cur chain /\ l = acc ++ chain.
Proof.
  induction fuel as [|fuel IH]; intros cur acc l H; simpl in H;
    [discriminate|].
  destruct (nth_error pv cur) as [p|] eqn:Hn; [|discriminate].
  destruct ((p =? -1)%Z || (p =? -2)%Z) eqn:Hstop.
  - inversion H; subst. exists []. rewrite app_nil_r. split; [|reflexivity].
    apply (chain_stop pv cur p Hn).
    apply orb_true_iff in Hstop. destruct Hstop as [E|E];
      apply Z.eqb_eq in E; auto.
  - destruct (p <? 0)%Z eqn:Hneg; [discriminate|].
    apply Z.ltb_ge in Hneg.
    destruct (IH _ _ _ H) as (chain & Hc & ->).
    exists (cur :: chain). rewrite <- app_assoc. split; [|reflexivity].
    now apply (chain_step pv cur p chain).
Qed.

Lemma chain_walk (pv : list Z) (cur : nat) (chain : list nat) :
  pred_chain pv cur chain ->
  forall fuel acc,
    (length chain < fuel)%nat ->
    walk fuel pv cur acc = Returns (acc ++ chain).
Proof.
  induction 1 as [cur p Hn Hp | cur p rest Hn Hp _ IH];
    intros [|fuel] acc Hf; simpl in *; try lia; rewrite Hn.
  - rewrite app_nil_r. now destruct Hp as [-> | ->].
  - replace ((p =? -1)%Z || (p =? -2)%Z) with false
      by (symmetry; apply orb_false_iff; split; apply Z.eqb_neq; lia).
    replace (p <? 0)%Z with false by (symmetry; apply Z.ltb_ge; lia).
    rewrite IH by lia. now rewrite <- app_assoc.
Qed.

Lemma tokens_of_fst (g : Graph) (path : list nat) :
  forall toks, tokens_of g path = Some toks -> map fst toks = path.
Proof.
  induction path as [|v path IH]; intros toks H; simpl in H.
  - now inversion H.
  - destruct (nth_error (Nodes g) v); [|discriminate].
    destruct (tokens_of g path) as [ts|]; [|discriminate].
    inversion H; subst. simpl. f_equal. now apply IH.
Qed.

Lemma tokens_of_named (g : Graph) (path : list nat) :
  forall toks v nm,
    tokens_of g path = Some toks -> In (v, nm) toks ->
    exists node, nth_error (Nodes g) v = Some node /\ Name node = nm.
Proof.
  induction path as [|w path IH]; intros toks v nm H Hin; simpl in H.
  - inversion H; subst. contradiction.
  - destruct (nth_error (Nodes g) w) as [node|] eqn:Hn; [|discriminate].
    destruct (tokens_of g path) as [ts|]; [|discriminate].
    inversion H; subst. destruct Hin as [E | Hin].
    + inversion E; subst. now exists node.
    + now apply (IH ts).
Qed.

(** X7: whenever ReconstructShortestPath returns a non-empty sequence it
    has printed a path, and the sequence is [start] followed by the
    predecessor chain of [finish] from its far end back to [finish]: the
    chain lists finish, its predecessor, the predecessor of that one and so
    on, and leaves out the node at which a predecessor of -1 or -2 is met,
    in whose place [start] stands whether or not it is that node.  The
    printed tokens carry the same indices with the names of those nodes.
    An empty sequence comes with "not solved" or "infinite paths". *)
Theorem reconstruct_shape (fuel : nat) (e : BellmanFordAlgorithm) (g : Graph)
  (start finish : nat) (m : Message) (path : list nat) :
  ReconstructShortestPath fuel e g start finish = Returns (m, path) ->
  (path = [] /\ (m = NotSolved \/ m = InfinitePaths start finish)) \/
  (exists chain toks,
     pred_chain (_previousVertex e) finish chain /\
     path = start :: rev chain /\
     m = PathIs start finish toks /\
     map fst toks = path /\
     forall v nm, In (v, nm) toks ->
                  exists node,
                    nth_error (Nodes g) v = Some node /\ Name node = nm).
Proof.
  unfold ReconstructShortestPath. intros H.
  destruct (_solved e); [|inversion H; subst; left; auto].
  destruct (nth_error (_shortestPath e) finish) as [d|]; [|discriminate].
  destruct (Qeq_bool d NEG_INF); [inversion H; subst; left; auto|].
  destruct (walk fuel (_previousVertex e) finish []) as [l| |] eqn:Hw;
    try discriminate.
  destruct (tokens_of g (rev (l ++ [start]))) as [ts|] eqn:Ht;
    [|discriminate].
  apply walk_chain in Hw. destruct Hw as (chain & Hc & ->).
  assert (Hp : rev (([] ++ chain) ++ [start]) = start :: rev chain)
    by (simpl; now rewrite rev_app_distr).
  rewrite Hp in *. inversion H; subst. right.
  exists chain, ts. repeat split; auto.
  - now apply (tokens_of_fst g).
  - intros v nm Hin. now apply (tokens_of_named g _ ts v nm Ht).
Qed.

Lemma reconstruct_shape_witness :
  let e := fst (ContainsNegativeCycles fresh graph_usd5 0) in
  ReconstructShortestPath 9 e graph_usd5 0 3
  = Returns (PathIs 0 3 [(0, "USD"); (2, "YEN"); (4, "CNY"); (1, "CHF");
                         (3, "GBP")]%nat%string,
             [0; 2; 4; 1; 3]%nat) /\
  ((([0; 2; 4; 1; 3]%nat : list nat) = [] /\
    (PathIs 0 3 [(0, "USD"); (2, "YEN"); (4, "CNY"); (1, "CHF");
                 (3, "GBP")]%nat%string = NotSolved \/
     PathIs 0 3 [(0, "USD"); (2, "YEN"); (4, "CNY"); (1, "CHF");
                 (3, "GBP")]%nat%string = InfinitePaths 0 3)) \/
   (exists chain toks,
      pred_chain (_previousVertex e) 3 chain /\
      [0; 2; 4; 1; 3]%nat = 0%nat :: rev chain /\
      PathIs 0 3 [(0, "USD"); (2, "YEN"); (4, "CNY"); (1, "CHF");
                  (3, "GBP")]%nat%string = PathIs 0 3 toks /\
      map fst toks = [0; 2; 4; 1; 3]%nat /\
      forall v nm, In (v, nm) toks ->
                   exists node,
                     nth_error (Nodes graph_usd5) v = Some node /\
                     Name node = nm)).
Proof.
  intros e.
  assert (H : ReconstructShortestPath 9 e graph_usd5 0 3
              = Returns (PathIs 0 3 [(0, "USD"); (2, "YEN"); (4, "CNY");
                                     (1, "CHF"); (3, "GBP")]%nat%string,
                         [0; 2; 4; 1; 3]%nat))
    by (vm_compute; reflexivity).
  split; [exact H|].
  exact (reconstruct_shape 9 e graph_usd5 0 3 _ _ H).
Defined.

(** X8: conversely, on a solved engine, when the distance of [finish] is
    not the negative-infinity sentinel, the predecessor chain of [finish]
    is [chain] and [start] and the nodes of the chain have names, the loop
    of ReconstructShortestPath ends after one more test than the chain has
    nodes, and the method returns [start] followed by the chain reversed.
    The weights of the graph are never consulted. *)
Theorem reconstruct_chain (fuel : nat) (e : BellmanFordAlgorithm) (g : Graph)
  (start finish : nat) (d : Q) (chain : list nat) :
  _solved e = true ->
  nth_error (_shortestPath e) finish = Some d ->
  ~ d == NEG_INF ->
  pred_chain (_previousVertex e) finish chain ->
  Forall (fun v => (v < length (Nodes g))%nat) (start :: chain) ->
  (length chain < fuel)%nat ->
  exists toks,
    map fst toks = start :: rev chain /\
    ReconstructShortestPath fuel e g start finish
    = Returns (PathIs start finish toks, start :: rev chain).
Proof.
  intros Hs Hd Hne Hc Hn Hf. unfold ReconstructShortestPath.
  rewrite Hs, Hd.
  destruct (Qeq_bool d NEG_INF) eqn:E;
    [apply Qeq_bool_eq in E; contradiction|].
  rewrite (chain_walk _ _ _ Hc fuel [] Hf).
  replace (rev (([] ++ chain) ++ [start])) with (start :: rev chain)
    by (simpl; now rewrite rev_app_distr).
  destruct (tokens_of g (start :: rev chain)) as [ts|] eqn:Ht.
  - exists ts. split; [now apply (tokens_of_fst g) | reflexivity].
  - exfalso. revert Ht. apply tokens_of_in_range.
    inversion Hn; subst. constructor; [assumption | now apply Forall_rev].
Qed.

Lemma reconstruct_chain_witness :
  let e := fst (FindPathsAndNegativeCycles fresh graph_usd5 0) in
  _solved e = true /\
  nth_error (_shortestPath e) 1 = Some (nth 1 (_shortestPath e) 0) /\
  ~ nth 1 (_shortestPath e) 0 == NEG_INF /\
  pred_chain (_previousVertex e) 1 [1; 4; 2]%nat /\
  Forall (fun v => (v < length (Nodes graph_usd5))%nat) [0; 1; 4; 2]%nat /\
  (length [1; 4; 2]%nat < 4)%nat /\
  exists toks,
    map fst toks = 0%nat :: rev [1; 4; 2]%nat /\
    ReconstructShortestPath 4 e graph_usd5 0 1
    = Returns (PathIs 0 1 toks, 0%nat :: rev [1; 4; 2]%nat).
Proof.
  intros e.
  assert (H1 : _solved e = true) by (vm_compute; reflexivity).
  assert (H2 : nth_error (_shortestPath e) 1
               = Some (nth 1 (_shortestPath e) 0))
    by (vm_compute; reflexivity).
  assert (H3 : ~ nth 1 (_shortestPath e) 0 == NEG_INF)
    by (apply Qeq_bool_neq; vm_compute; reflexivity).
  assert (H4 : pred_chain (_previousVertex e) 1 [1; 4; 2]%nat).
  { apply (chain_step _ 1 4%Z); [vm_compute; reflexivity | lia |].
    apply (chain_step _ 4 2%Z); [vm_compute; reflexivity | lia |].
    apply (chain_step _ 2 0%Z); [vm_compute; reflexivity | lia |].
    apply (chain_stop _ 0 (-1)%Z); [vm_compute; reflexivity | now left]. }
  assert (H5 : Forall (fun v => (v < length (Nodes graph_usd5))%nat)
                 [0; 1; 4; 2]%nat)
    by (repeat constructor; simpl; lia).
  assert (H6 : (length [1; 4; 2]%nat < 4)%nat) by (simpl; lia).
  repeat (split; [assumption|]).
  exact (reconstruct_chain 4 e graph_usd5 0 1 _ _ H1 H2 H3 H4 H5 H6).
Defined.

(** ** Strategy C: the cycle marks *)

Lemma marked_step_C2 (g : Graph) (n : nat)
  (st : BellmanFordAlgorithm * bool) (p : nat * nat) :
  In p (pairs n) -> marked_state n st -> marked_state n (step_C2 g st p).
Proof.
  destruct st as [e u], p as [from to]. intros Hin Hm.
  apply in_pairs in Hin. destruct Hin as [_ Hto].
  unfold step_C2. simpl.
  destruct (improves_edge g e from to); [|exact Hm].
  destruct Hm as (H1 & H2 & Hd & Hf). simpl in *.
  unfold marked_state, prev in *. simpl. rewrite !length_vset.
  split; [exact H1 | split; [exact H2 | split]].
  - intros v Hv Hp. destruct (Nat.eq_dec to v) as [-> | Hne].
    + apply nth_vset_same. now rewrite H1.
    + rewrite nth_vset_other by exact Hne.
      rewrite nth_vset_other in Hp by exact Hne. now apply Hd.
  - split; [intros _ | reflexivity].
    exists to. split; [exact Hto|]. apply nth_vset_same. now rewrite H2.
Qed.

Lemma marked_phase_C2 (g : Graph) (n : nat) (e : BellmanFordAlgorithm) :
  marked_state n (e, false) -> marked_state n (phase_C2 g n e).
Proof.
  intros He. unfold phase_C2. apply iter_invariant; [|exact He].
  intros st Hst. apply fold_left_invariant; [|exact Hst].
  intros st' p Hin. now apply marked_step_C2.
Qed.

Lemma unmarked_entry (n : nat) (e : BellmanFordAlgorithm) (v : nat) :
  pred_in_range StrategyA n e -> (v < n)%nat -> prev e v <> (-2)%Z.
Proof.
  intros (_ & H2 & H) Hv Hp. rewrite Forall_forall in H.
  assert (Hin : In (prev e v) (_previousVertex e))
    by (unfold prev; apply nth_In; now rewrite H2).
  destruct (H _ Hin) as [E | [E | [E _]]]; [| |discriminate];
    rewrite Hp in E; lia.
Qed.

(** X9: FindPathsAndNegativeCycles, run on a fresh engine, returns true
    exactly when it has marked some node with the cycle sentinel -2; every
    node it marked carries the distance NEG_INF, so that
    ReconstructShortestPath reports "infinite number of shortest paths"
    and returns the empty sequence for it. *)
Theorem cycle_marks (g : Graph) (start : nat) :
  let r := FindPathsAndNegativeCycles fresh g start in
  (snd r = true <->
   exists v, (v < length (Nodes g))%nat /\ prev (fst r) v = (-2)%Z) /\
  forall v fuel,
    (v < length (Nodes g))%nat -> prev (fst r) v = (-2)%Z ->
    ReconstructShortestPath fuel (fst r) g start v
    = Returns (InfinitePaths start v, []).
Proof.
  cbv zeta. unfold FindPathsAndNegativeCycles.
  pose proof (pred_in_range_phase_C1 g (length (Nodes g)) StrategyA _
                (pred_in_range_init (length (Nodes g)) StrategyA start))
    as (H1 & H2 & H).
  assert (Hm : marked_state (length (Nodes g))
                 (phase_C1 g (length (Nodes g))
                    (init fresh (length (Nodes g)) start), false)).
  { split; [exact H1 | split; [exact H2 | split]]; simpl.
    - intros v Hv Hp. exfalso. revert Hp.
      apply (unmarked_entry (length (Nodes g))); [now repeat split | exact Hv].
    - split; [discriminate|]. intros (v & Hv & Hp). exfalso. revert Hp.
      apply (unmarked_entry (length (Nodes g)));
        [now repeat split | exact Hv]. }
  apply (marked_phase_C2 g) in Hm.
  destruct (phase_C2 _ _ _) as [e2 u]. destruct Hm as (L1 & L2 & Hd & Hf).
  simpl in *. split; [exact Hf|].
  intros v fuel Hv Hp. unfold ReconstructShortestPath. simpl.
  rewrite (nth_error_nth' _ 0) by (rewrite L1; exact Hv).
  now rewrite (Hd v Hv Hp).
Qed.

(** ** A clean answer comes with tight predecessor edges *)

Section PredEdges.

Variable g : Graph.
Variable n : nat.
Variable adm : nat -> nat -> Prop.

Lemma pred_edges_ok_assign (e : BellmanFordAlgorithm) (from to : nat) :
  pred_edges_ok adm g n e ->
  (from < n)%nat -> (to < n)%nat -> adm from to ->
  improves g e from to = true ->
  pred_edges_ok adm g n
    (assign e to (dist e from + weight g from to) (Z.of_nat from)).
Proof.
  intros (H1 & H2 & H) Hf Ht Ha Hi. apply Qgtb_true in Hi.
  unfold pred_edges_ok, dist, prev in *. simpl. rewrite !length_vset.
  split; [exact H1 | split; [exact H2|]].
  assert (Hnew : nth to (vset to (nth from (_shortestPath e) 0
                                  + weight g from to) (_shortestPath e)) 0
                 = nth from (_shortestPath e) 0 + weight g from to)
    by (apply nth_vset_same; now rewrite H1).
  intros v u Hv Hp. destruct (Nat.eq_dec to v) as [<- | Hne].
  - rewrite nth_vset_same in Hp by (now rewrite H2).
    apply Nat2Z.inj in Hp. subst u. split; [exact Hf | split; [exact Ha|]].
    destruct (Nat.eq_dec from to) as [-> | Hft].
    + right. split; [reflexivity | lra].
    + left. split; [exact Hft|].
      rewrite Hnew, nth_vset_other by congruence. lra.
  - rewrite nth_vset_other in Hp by exact Hne.
    destruct (H v u Hv Hp) as (Hu & Hau & Hc).
    split; [exact Hu | split; [exact Hau|]].
    destruct Hc as [[Huv Hle] | [Huv Hw]]; [left | right; now split].
    split; [exact Huv|]. rewrite (nth_vset_other to v) by exact Hne.
    destruct (Nat.eq_dec to u) as [<- | Hnu].
    + rewrite Hnew. lra.
    + now rewrite nth_vset_other by exact Hnu.
Qed.

Lemma pred_edges_ok_init (start : nat) :
  pred_edges_ok adm g n (init fresh n start).
Proof.
  unfold pred_edges_ok, prev, init, fresh. cbn [_shortestPath _previousVertex].
  rewrite !resize_nil, length_vset, !repeat_length.
  split; [reflexivity | split; [reflexivity|]].
  intros v u Hv Hp. rewrite nth_repeat_lt in Hp by exact Hv. lia.
Qed.

End PredEdges.

Lemma pred_edges_ok_relax_A (g : Graph) (n k : nat) :
  forall e u,
    pred_edges_ok (fun _ _ => True) g n e ->
    pred_edges_ok (fun _ _ => True) g n (fst (relax_A g n k e u)).
Proof.
  induction k as [|k IH]; intros e u He; simpl; [exact He|].
  assert (Hp : pred_edges_ok (fun _ _ => True) g n (fst (pass_A g n e))).
  { unfold pass_A.
    apply (fold_left_invariant
             (fun st => pred_edges_ok (fun _ _ => True) g n (fst st)));
      [|exact He].
    intros [e' u'] [from to] Hin He'. apply in_pairs in Hin.
    unfold step_A. simpl in *.
    destruct (improves g e' from to) eqn:Hi; simpl; [|exact He'].
    apply pred_edges_ok_assign; auto; lia. }
  destruct (pass_A g n e) as [e' u']. simpl in Hp.
  destruct u'; [now apply IH | exact Hp].
Qed.

Lemma pred_edges_ok_phase_C1 (g : Graph) (n : nat)
  (e : BellmanFordAlgorithm) :
  pred_edges_ok (fun u v => Qeq_bool (weight g u v) INF = false) g n e ->
  pred_edges_ok (fun u v => Qeq_bool (weight g u v) INF = false) g n
    (phase_C1 g n e).
Proof.
  intros He. unfold phase_C1. apply iter_invariant; [|exact He].
  intros e' He'. apply fold_left_invariant; [|exact He'].
  intros e2 [from to] Hin He2. apply in_pairs in Hin. unfold step_C1.
  destruct (improves_edge g e2 from to) eqn:Hi; [|exact He2].
  unfold improves_edge in Hi. apply andb_true_iff in Hi.
  destruct Hi as [Hw Hi]. apply negb_true_iff in Hw.
  apply pred_edges_ok_assign; auto; lia.
Qed.

(** X10: when ContainsNegativeCycles, run on a fresh engine, answers
    false, every predecessor link it leaves is tight: a node [v] whose
    predecessor is the node [u] has distance[v] equal to distance[u] plus
    Matrix[u][v], the entry being taken as it stands even where it is the
    missing-edge sentinel. *)
Theorem clean_links_tight_A (g : Graph) (start : nat) (v u : nat) :
  let r := ContainsNegativeCycles fresh g start in
  snd r = false ->
  (v < length (Nodes g))%nat ->
  prev (fst r) v = Z.of_nat u ->
  (u < length (Nodes g))%nat /\
  dist (fst r) v == dist (fst r) u + weight g u v.
Proof.
  cbv zeta. unfold ContainsNegativeCycles.
  pose proof (pred_edges_ok_relax_A g (length (Nodes g))
                (length (Nodes g) - 1) _ false
                (pred_edges_ok_init g _ _ start)) as Hok.
  destruct (relax_A _ _ _ _ _) as [e1 upd] eqn:Hr. simpl in Hok.
  destruct (upd && still_improves g (length (Nodes g)) e1) eqn:Hc; simpl;
    [discriminate|].
  intros _ Hv Hp. destruct Hok as (_ & _ & Hok).
  assert (Hq : (length (Nodes g) - 1 = 0)%nat /\
               e1 = init fresh (length (Nodes g)) start \/
               still_improves g (length (Nodes g)) e1 = false).
  { destruct upd; simpl in Hc; [now right|].
    apply relax_A_quiet in Hr. destruct Hr as [(Hk & _ & He) | Hq];
      [now left | now right]. }
  destruct Hq as [[_ ->] | Hq].
  - exfalso. unfold prev, set_solved, init, fresh in Hp.
    cbn [_previousVertex] in Hp.
    rewrite resize_nil, nth_repeat_lt in Hp by exact Hv. lia.
  - destruct (Hok v u Hv Hp) as (Hu & _ & Hcase). split; [exact Hu|].
    assert (Hin : In (u, v) (pairs (length (Nodes g))))
      by (apply in_pairs; lia).
    apply (existsb_false _ _ Hq) in Hin. simpl in Hin.
    apply Qgtb_false in Hin.
    change (dist e1 v == dist e1 u + weight g u v).
    destruct Hcase as [[_ Hle] | [-> Hw]]; lra.
Qed.

Lemma clean_links_tight_A_witness :
  let r := ContainsNegativeCycles fresh graph_usd5 0 in
  snd r = false /\
  (3 < length (Nodes graph_usd5))%nat /\
  prev (fst r) 3 = Z.of_nat 1 /\
  (1 < length (Nodes graph_usd5))%nat /\
  dist (fst r) 3 == dist (fst r) 1 + weight graph_usd5 1 3.
Proof.
  intros r.
  assert (H1 : snd r = false) by (vm_compute; reflexivity).
  assert (H2 : (3 < length (Nodes graph_usd5))%nat) by (simpl; lia).
  assert (H3 : prev (fst r) 3 = Z.of_nat 1) by (vm_compute; reflexivity).
  repeat (split; [assumption|]).
  exact (clean_links_tight_A graph_usd5 0 3 1 H1 H2 H3).
Defined.

(** The predecessor links of a clean answer of strategy C. *)
Lemma tight_links_C (g : Graph) (start : nat) (v u : nat) :
  let r := FindPathsAndNegativeCycles fresh g start in
  snd r = false ->
  (v < length (Nodes g))%nat ->
  prev (fst r) v = Z.of_nat u ->
  edge g u v = true /\
  dist (fst r) v == dist (fst r) u + weight g u v.
Proof.
  cbv zeta. unfold FindPathsAndNegativeCycles.
  pose proof (pred_edges_ok_phase_C1 g (length (Nodes g)) _
                (pred_edges_ok_init g _ _ start)) as Hok.
  destruct (phase_C2 _ _ _) as [e2 neg] eqn:Hr. simpl.
  intros -> Hv Hp. pose proof (phase_C2_quiet _ _ _ _ Hr) as Hq.
  destruct Hq as [Hk | [-> Hq]].
  - exfalso. unfold phase_C2, phase_C1 in Hr. rewrite Hk in Hr.
    simpl in Hr. inversion Hr; subst e2.
    unfold prev, set_solved, init, fresh in Hp.
    cbn [_previousVertex] in Hp.
    rewrite resize_nil, nth_repeat_lt in Hp by exact Hv. lia.
  - destruct Hok as (_ & _ & Hok).
    destruct (Hok v u Hv Hp) as (Hu & Hw & Hcase).
    assert (He : edge g u v = true).
    { unfold edge. rewrite Hw.
      apply Nat.ltb_lt in Hu, Hv. now rewrite Hu, Hv. }
    split; [exact He|].
    apply quiet_edges_feasible in Hq. pose proof (Hq u v He) as Hle'.
    match goal with
    | |- dist (set_solved ?e) _ == _ =>
        change (dist e v == dist e u + weight g u v)
    end.
    destruct Hcase as [[_ Hle] | [Huv Hwl]]; [lra|].
    subst u. lra.
Qed.

(** X11: when FindPathsAndNegativeCycles, run on a fresh engine, answers
    false, every predecessor link it leaves is an edge of the graph and is
    tight: a node [v] whose predecessor is the node [u] has an entry
    Matrix[u][v] other than the missing-edge sentinel and distance[v]
    equal to distance[u] plus Matrix[u][v]. *)
Theorem clean_links_tight_C (g : Graph) (start : nat) (v u : nat) :
  let r := FindPathsAndNegativeCycles fresh g start in
  snd r = false ->
  (v < length (Nodes g))%nat ->
  prev (fst r) v = Z.of_nat u ->
  edge g u v = true /\
  dist (fst r) v == dist (fst r) u + weight g u v.
Proof. exact (tight_links_C g start v u). Qed.

Lemma clean_links_tight_C_witness :
  let r := FindPathsAndNegativeCycles fresh graph_sedgewick6 4 in
  snd r = false /\
  (1 < length (Nodes graph_sedgewick6))%nat /\
  prev (fst r) 1 = Z.of_nat 5 /\
  edge graph_sedgewick6 5 1 = true /\
  dist (fst r) 1 == dist (fst r) 5 + weight graph_sedgewick6 5 1.
Proof.
  intros r.
  assert (H1 : snd r = false) by (vm_compute; reflexivity).
  assert (H2 : (1 < length (Nodes graph_sedgewick6))%nat) by (simpl; lia).
  assert (H3 : prev (fst r) 1 = Z.of_nat 5) by (vm_compute; reflexivity).
  repeat (split; [assumption|]).
  exact (clean_links_tight_C graph_sedgewick6 4 1 5 H1 H2 H3).
Defined.

(** ** Walks *)






Section Walks.

Variable g : Graph.
Variable n : nat.
Variable adm : nat -> nat -> bool.
Hypothesis adm_nodes :
  forall u v, adm u v = true -> (u < n)%nat /\ (v < n)%nat.




End Walks.

(** ** What a sequence of relaxations achieves *)

Section Relaxation.

Variable g : Graph.
Variable n : nat.
Variable start : nat.
Variable adm : nat -> nat -> bool.
Hypothesis adm_nodes :
  forall u v, adm u v = true -> (u < n)%nat /\ (v < n)%nat.











End Relaxation.

(** ** The passes of strategies A and C as relaxation sequences *)


















(** ** The distances of a clean answer *)







(** ** Strategy D: every distance is the weight of a walk from the source *)

Lemma init_fresh_length (n start : nat) :
  length (_shortestPath (init fresh n start)) = n /\
  length (_previousVertex (init fresh n start)) = n.
Proof.
  unfold init, fresh. cbn [_shortestPath _previousVertex].
  now rewrite !resize_nil, length_vset, !repeat_length.
Qed.

Lemma init_fresh_dist (n start v : nat) :
  (v < n)%nat ->
  nth v (_shortestPath (init fresh n start)) 0
  = if (v =? start)%nat then 0 else INF.
Proof.
  intros Hv. unfold init, fresh. cbn [_shortestPath]. rewrite resize_nil.
  destruct (Nat.eqb_spec v start) as [-> | Hne].
  - apply nth_vset_same. now rewrite repeat_length.
  - rewrite nth_vset_other by congruence. now apply nth_repeat_lt.
Qed.

Lemma init_fresh_prev (n start v : nat) :
  (v < n)%nat -> prev (init fresh n start) v = (-1)%Z.
Proof.
  intros Hv. unfold prev, init, fresh. cbn [_previousVertex].
  rewrite resize_nil. now apply nth_repeat_lt.
Qed.

Section Sourced.

Variable g : Graph.
Variable start : nat.




End Sourced.



(** ** The drivers *)

Lemma reconstruct_all_unsolved (fuel : nat) (e : BellmanFordAlgorithm)
  (g : Graph) (from : nat) (tos : list nat) :
  _solved e = false ->
  reconstruct_all fuel e g from tos
  = (repeat (Report NotSolved) (length tos), Returns tt).
Proof.
  intros H. induction tos as [|to tos IH]; simpl; [reflexivity|].
  unfold ReconstructShortestPath. rewrite H, IH. reflexivity.
Qed.

Lemma reconstruct_solved_message (fuel : nat) (e : BellmanFordAlgorithm)
  (g : Graph) (from to : nat) (r : Message * list nat) :
  _solved e = true ->
  ReconstructShortestPath fuel e g from to = Returns r ->
  fst r <> NotSolved.
Proof.
  unfold ReconstructShortestPath. intros -> H.
  destruct (nth_error (_shortestPath e) to); [|discriminate].
  destruct (Qeq_bool q NEG_INF); [inversion H; discriminate|].
  destruct (walk fuel (_previousVertex e) to []) as [l| |];
    try discriminate.
  destruct (tokens_of g (rev (l ++ [from]))); [|discriminate].
  inversion H. discriminate.
Qed.

Lemma reconstruct_all_solved (fuel : nat) (e : BellmanFordAlgorithm)
  (g : Graph) (from : nat) (tos : list nat) :
  _solved e = true ->
  ~ In (Report NotSolved) (fst (reconstruct_all fuel e g from tos)).
Proof.
  intros Hs. induction tos as [|to tos IH]; simpl; [tauto|].
  destruct (ReconstructShortestPath fuel e g from to) as [r| |] eqn:Hr;
    simpl; try tauto.
  destruct (reconstruct_all fuel e g from tos) as [ls o]. simpl in *.
  intros [E | Hin]; [|now apply IH].
  inversion E as [Hm].
  now apply (reconstruct_solved_message fuel e g from to r Hs Hr).
Qed.

Lemma report_solved (title : string) (c : bool) (fuel : nat)
  (e : BellmanFordAlgorithm) (g : Graph) (from : nat) :
  _solved e = true ->
  ~ In (Report NotSolved) (fst (report title c fuel e g from)).
Proof.
  intros Hs. unfold report.
  pose proof (reconstruct_all_solved fuel e g from
                (seq 0 (length (Nodes g))) Hs) as H.
  destruct (reconstruct_all fuel e g from (seq 0 (length (Nodes g))))
    as [ls o]. simpl in *.
  intros [E | Hin]; [discriminate|].
  apply in_app_or in Hin. destruct Hin as [Hin | Hin]; [|contradiction].
  destruct c; simpl in Hin; [destruct Hin as [E | []]; discriminate|].
  contradiction.
Qed.

(** X17: when the strategy reports a cycle, runSimple and runSedgewick
    print their banner, the line "Graph contains negative cycle." and then
    "Not solved." once for every node of the graph, and nothing else: no
    path is ever printed after a detected cycle, since neither strategy
    sets the solved flag on that exit. *)
Theorem drivers_after_cycle (fuel : nat) (g : Graph) (from : nat) :
  (snd (ContainsNegativeCycles fresh g from) = true ->
   runSimple fuel g from
   = (Banner banner_simple :: CycleLine
        :: repeat (Report NotSolved) (length (Nodes g)),
      Returns tt)) /\
  (snd (ContainsNegativeCycles_Sedgewick fresh g from) = true ->
   runSedgewick fuel g from
   = (Banner banner_sedgewick :: CycleLine
        :: repeat (Report NotSolved) (length (Nodes g)),
      Returns tt)).
Proof.
  split.
  - unfold runSimple, ContainsNegativeCycles.
    pose proof (solved_relax_A g (length (Nodes g)) (length (Nodes g) - 1)
                  (init fresh (length (Nodes g)) from) false) as Hs.
    destruct (relax_A _ _ _ _ _) as [e1 u]. simpl in Hs.
    destruct (u && still_improves g (length (Nodes g)) e1); simpl;
      [|discriminate].
    intros _. unfold report.
    rewrite (reconstruct_all_unsolved fuel e1 g from _ Hs), length_seq.
    reflexivity.
  - unfold runSedgewick, ContainsNegativeCycles_Sedgewick.
    pose proof (solved_loop_B g from (length (Nodes g)) (length (Nodes g)) 0
                  (init fresh (length (Nodes g)) from)) as Hs.
    destruct (loop_B _ _ _ _ _ _) as [e1 c]. simpl in *.
    intros ->. simpl in Hs. unfold report.
    rewrite (reconstruct_all_unsolved fuel e1 g from _ Hs), length_seq.
    reflexivity.
Qed.

Lemma drivers_after_cycle_witness :
  (snd (ContainsNegativeCycles fresh graph_cycle8 0) = true /\
   runSimple 9 graph_cycle8 0
   = (Banner banner_simple :: CycleLine
        :: repeat (Report NotSolved) (length (Nodes graph_cycle8)),
      Returns tt)) /\
  (snd (ContainsNegativeCycles_Sedgewick fresh graph_cycle8 0) = true /\
   runSedgewick 9 graph_cycle8 0
   = (Banner banner_sedgewick :: CycleLine
        :: repeat (Report NotSolved) (length (Nodes graph_cycle8)),
      Returns tt)).
Proof.
  assert (H1 : snd (ContainsNegativeCycles fresh graph_cycle8 0) = true)
    by (vm_compute; reflexivity).
  assert (H2 : snd (ContainsNegativeCycles_Sedgewick fresh graph_cycle8 0)
               = true) by (vm_compute; reflexivity).
  split; (split; [assumption|]).
  - exact (proj1 (drivers_after_cycle 9 graph_cycle8 0) H1).
  - exact (proj2 (drivers_after_cycle 9 graph_cycle8 0) H2).
Defined.

(** X18: runDetectNegativeCycles, from any source, and runSedgewickFifo,
    from a source below the node count, never print "Not solved.": their
    strategies always leave the solved flag set, whatever the graph holds
    and however many steps the model is given. *)
Theorem drivers_always_solved (steps fuel : nat) (g : Graph) (from : nat) :
  ~ In (Report NotSolved) (fst (runDetectNegativeCycles fuel g from)) /\
  ((from < length (Nodes g))%nat ->
   ~ In (Report NotSolved) (fst (runSedgewickFifo steps fuel g from))).
Proof.
  split.
  - unfold runDetectNegativeCycles, FindPathsAndNegativeCycles.
    destruct (phase_C2 _ _ _) as [e2 c]. now apply report_solved.
  - intros Hf. unfold runSedgewickFifo, FindPathOnly.
    destruct (loop_D_stops g (length (Nodes g)) (length (Nodes g) + 1)
                0 [from] [] (init fresh (length (Nodes g)) from) false)
      as (fuel0 & e' & Hs & Hstop); try lia.
    { constructor; [lia | constructor]. }
    { constructor. }
    simpl in Hstop. destruct (Hstop steps) as [Hge Hlt].
    destruct (Nat.le_gt_cases fuel0 steps) as [Hle | Hgt].
    + rewrite (Hge Hle). now apply report_solved.
    + rewrite (Hlt Hgt). simpl. intros [E | []]. discriminate.
Qed.

Lemma drivers_always_solved_witness :
  ~ In (Report NotSolved)
      (fst (runDetectNegativeCycles 9 graph_cycle8 0)) /\
  ((0 < length (Nodes graph_cycle8))%nat /\
   ~ In (Report NotSolved)
       (fst (runSedgewickFifo 60 9 graph_cycle8 0))).
Proof.
  assert (H : (0 < length (Nodes graph_cycle8))%nat) by (simpl; lia).
  split; [exact (proj1 (drivers_always_solved 60 9 graph_cycle8 0))|].
  split; [exact H|].
  exact (proj2 (drivers_always_solved 60 9 graph_cycle8 0) H).
Defined.

(** ** Strategy D: the least number of queue reads *)

Lemma loop_D_needs (g : Graph) (n : nat) (fuel : nat) :
  forall r z pre post e inner,
    (z + r = n + 1)%nat ->
    Forall (fun v => v <> n) pre ->
    Forall (fun v => v <> n) post ->
    (fuel <= length pre + r)%nat ->
    loop_D fuel g n e (pre ++ n :: post) z inner = OutOfFuel.
Proof.
  induction fuel as [|fuel IH]; intros r z pre post e inner Hz Hpre Hpost Hf;
    [reflexivity|].
  destruct pre as [|v pre]; simpl in *.
  - rewrite Nat.eqb_refl. destruct r as [|r]; [lia|].
    replace (n <? z)%nat with false by (symmetry; apply Nat.ltb_ge; lia).
    apply (IH r (S z) post []); auto; lia.
  - inversion Hpre as [|? ? Hv Hpre']; subst.
    replace (v =? n)%nat with false by (symmetry; apply Nat.eqb_neq; lia).
    destruct (relax_appends g n v (seq 0 n) e (pre ++ n :: post)
                (seq_below n)) as (e1 & pushed & Hfold & Hpushed).
    rewrite Hfold, <- app_assoc. simpl.
    apply (IH r z pre (post ++ pushed)); auto; [|lia].
    apply Forall_app. auto.
Qed.

(** X19: FindPathOnly never finishes early.  From a source below the node
    count, on any engine and any graph, even one without a single edge,
    the worklist loop reads the queue at least [n + 3] times before the
    method returns, [n] being the node count: the sentinel is pushed back
    until the round counter has passed [n]. *)
Theorem FindPathOnly_least_reads (fuel : nat) (e : BellmanFordAlgorithm)
  (g : Graph) (start : nat) :
  (start < length (Nodes g))%nat ->
  (fuel <= length (Nodes g) + 2)%nat ->
  FindPathOnly fuel e g start = OutOfFuel.
Proof.
  intros Hs Hf. unfold FindPathOnly.
  apply (loop_D_needs g (length (Nodes g)) fuel (length (Nodes g) + 1) 0
           [start] []); simpl; try lia.
  - constructor; [lia | constructor].
  - constructor.
Qed.

Lemma FindPathOnly_least_reads_witness :
  (0 < length (Nodes graph_loop1))%nat /\
  (3 <= length (Nodes graph_loop1) + 2)%nat /\
  FindPathOnly 3 fresh graph_loop1 0 = OutOfFuel.
Proof.
  split; [simpl; lia | split; [simpl; lia|]].
  apply FindPathOnly_least_reads; simpl; lia.
Defined.

(** ** Reconstruction returns within [n + 1] tests or never *)

Lemma pred_chain_functional (pv : list Z) (cur : nat) (c1 c2 : list nat) :
  pred_chain pv cur c1 -> pred_chain pv cur c2 -> c1 = c2.
Proof.
  intros H1. revert c2.
  induction H1 as [cur p Hn Hp | cur p rest Hn Hp _ IH]; intros c2 H2;
    inversion H2 as [cur' p' Hn' Hp' | cur' p' rest' Hn' Hp' Hr']; subst;
    rewrite Hn in Hn'; inversion Hn'; subst.
  - reflexivity.
  - lia.
  - lia.
  - f_equal. now apply IH.
Qed.

Lemma pred_chain_suffix (pv : list Z) (a : list nat) (x : nat)
  (b : list nat) :
  forall cur, pred_chain pv cur (a ++ x :: b) -> pred_chain pv x (x :: b).
Proof.
  induction a as [|y a IH]; intros cur H; simpl in H.
  - inversion H; subst. exact H.
  - inversion H; subst. eapply IH. eassumption.
Qed.

Lemma pred_chain_NoDup (pv : list Z) (cur : nat) (c : list nat) :
  pred_chain pv cur c -> NoDup c.
Proof.
  induction 1 as [cur p Hn Hp | cur p rest Hn Hp Hrest IH]; constructor;
    [|exact IH].
  intros Hin. apply in_split in Hin. destruct Hin as (l1 & l2 & ->).
  pose proof (pred_chain_suffix pv l1 cur l2 _ Hrest) as Hs.
  pose proof (chain_step pv cur p _ Hn Hp Hrest) as Hc.
  pose proof (pred_chain_functional pv cur _ _ Hc Hs) as E.
  apply (f_equal (@length nat)) in E. simpl in E.
  rewrite length_app in E. simpl in E. lia.
Qed.

(** X20: after any strategy run on a fresh engine from a source below the
    node count, the loop of ReconstructShortestPath, for a finish below the
    node count, either ends within [n + 1] tests of its condition, [n]
    being the node count, or never ends: whatever it returns with more
    tests, it returns with [n + 1]. *)
Theorem reconstruct_decisive (fuel rf : nat) (s : Strategy) (g : Graph)
  (start finish : nat) (e1 : BellmanFordAlgorithm)
  (r : Message * list nat) :
  (start < length (Nodes g))%nat ->
  (finish < length (Nodes g))%nat ->
  run fuel s fresh g start = Returns e1 ->
  ReconstructShortestPath rf e1 g start finish = Returns r ->
  ReconstructShortestPath (S (length (Nodes g))) e1 g start finish
  = Returns r.
Proof.
  intros Hs Hf Hr H.
  destruct (pred_in_range_run fuel s g start e1 Hs Hr) as (H1 & H2 & Hp).
  unfold ReconstructShortestPath in *.
  destruct (_solved e1); [|exact H].
  destruct (nth_error (_shortestPath e1) finish) as [d|]; [|discriminate].
  destruct (Qeq_bool d NEG_INF); [exact H|].
  destruct (walk rf (_previousVertex e1) finish []) as [l| |] eqn:Hw;
    try discriminate.
  pose proof (walk_in_range s _ _ H2 Hp rf finish [] Hf (Forall_nil _))
    as Hin. rewrite Hw in Hin.
  apply walk_chain in Hw. destruct Hw as (chain & Hc & ->).
  simpl app in Hin.
  assert (Hlen : (length chain <= length (Nodes g))%nat).
  { assert (Hincl : incl chain (seq 0 (length (Nodes g)))).
    { intros x Hx. apply in_seq. rewrite Forall_forall in Hin.
      specialize (Hin x Hx). lia. }
    apply (NoDup_incl_length (pred_chain_NoDup _ _ _ Hc)) in Hincl.
    now rewrite length_seq in Hincl. }
  rewrite (chain_walk _ _ _ Hc (S (length (Nodes g))) []) by lia.
  exact H.
Qed.

Lemma reconstruct_decisive_witness :
  let e1 := fst (FindPathsAndNegativeCycles fresh graph_usd5 0) in
  let r := (PathIs 0 3 [(0, "USD"); (2, "YEN"); (4, "CNY"); (1, "CHF");
                        (3, "GBP")]%nat%string,
            [0; 2; 4; 1; 3]%nat) in
  (0 < length (Nodes graph_usd5))%nat /\
  (3 < length (Nodes graph_usd5))%nat /\
  run 0 StrategyC fresh graph_usd5 0 = Returns e1 /\
  ReconstructShortestPath 40 e1 graph_usd5 0 3 = Returns r /\
  ReconstructShortestPath (S (length (Nodes graph_usd5))) e1 graph_usd5 0 3
  = Returns r.
Proof.
  intros e1 r.
  assert (H1 : (0 < length (Nodes graph_usd5))%nat) by (simpl; lia).
  assert (H2 : (3 < length (Nodes graph_usd5))%nat) by (simpl; lia).
  assert (H3 : run 0 StrategyC fresh graph_usd5 0 = Returns e1)
    by reflexivity.
  assert (H4 : ReconstructShortestPath 40 e1 graph_usd5 0 3 = Returns r)
    by (vm_compute; reflexivity).
  repeat (split; [assumption|]).
  exact (reconstruct_decisive 0 40 StrategyC graph_usd5 0 3 e1 r
           H1 H2 H3 H4).
Defined.

(** ** The path of a clean answer is a walk *)





(** ** The verdict does not depend on the source *)



Lemma cycle_marks_witness :
  let r := FindPathsAndNegativeCycles fresh graph_cycle8 0 in
  (3 < length (Nodes graph_cycle8))%nat /\
  prev (fst r) 3 = (-2)%Z /\
  snd r = true /\
  ReconstructShortestPath 0 (fst r) graph_cycle8 0 3
  = Returns (InfinitePaths 0 3, []).
Proof.
  intros r.
  assert (H1 : (3 < length (Nodes graph_cycle8))%nat) by (simpl; lia).
  assert (H2 : prev (fst r) 3 = (-2)%Z) by (vm_compute; reflexivity).
  split; [exact H1 | split; [exact H2 | split]].
  - apply (proj1 (cycle_marks graph_cycle8 0)).
    exists 3%nat. split; [exact H1 | exact H2].
  - exact (proj2 (cycle_marks graph_cycle8 0) 3%nat 0%nat H1 H2).
Defined.

(** ** A predecessor of -1 means an untouched distance *)

Section ReachedMarks.

Variable g : Graph.
Variable n : nat.
Variable start : nat.

Lemma reached_marks_init : reached_marks n start (init fresh n start).
Proof.
  destruct (init_fresh_length n start) as [L1 L2].
  split; [exact L1 | split; [exact L2|]]. intros v Hv. left.
  split; [now apply init_fresh_prev|]. now apply init_fresh_dist.
Qed.

Lemma reached_marks_below (e : BellmanFordAlgorithm) (v : nat) :
  reached_marks n start e -> (v < n)%nat -> dist e v <= base start v.
Proof.
  intros (_ & _ & H) Hv. unfold dist.
  destruct (H v Hv) as [[_ E] | [_ E]]; [rewrite E; lra|].
  unfold dist in E. lra.
Qed.

Lemma reached_marks_assign (e : BellmanFordAlgorithm) (to : nat) (d : Q)
  (p : Z) :
  reached_marks n start e -> (to < n)%nat -> p <> (-1)%Z ->
  d < base start to ->
  reached_marks n start (assign e to d p).
Proof.
  intros (H1 & H2 & H) Hto Hp Hd. unfold reached_marks, dist, prev in *.
  simpl. rewrite !length_vset. split; [exact H1 | split; [exact H2|]].
  intros v Hv. destruct (Nat.eq_dec to v) as [<- | Hne].
  - right. rewrite !nth_vset_same by (rewrite ?H1, ?H2; exact Hto).
    now split.
  - rewrite !nth_vset_other by exact Hne. now apply H.
Qed.

Lemma reached_marks_improved (e : BellmanFordAlgorithm) (from to : nat) :
  reached_marks n start e -> (to < n)%nat ->
  improves g e from to = true ->
  reached_marks n start
    (assign e to (dist e from + weight g from to) (Z.of_nat from)).
Proof.
  intros He Hto Hi. apply reached_marks_assign; auto; [lia|].
  apply Qgtb_true in Hi. pose proof (reached_marks_below e to He Hto). lra.
Qed.

Lemma base_above_NEG_INF (v : nat) : NEG_INF < base start v.
Proof. unfold base. now destruct (v =? start)%nat. Qed.

Lemma reached_marks_relax_A (k : nat) :
  forall e u,
    reached_marks n start e ->
    reached_marks n start (fst (relax_A g n k e u)).
Proof.
  induction k as [|k IH]; intros e u He; simpl; [exact He|].
  assert (Hp : reached_marks n start (fst (pass_A g n e))).
  { unfold pass_A.
    apply (fold_left_invariant (fun st => reached_marks n start (fst st)));
      [|exact He].
    intros [e' u'] [from to] Hin He'. apply in_pairs in Hin.
    unfold step_A. simpl in *.
    destruct (improves g e' from to) eqn:Hi; simpl; [|exact He'].
    apply reached_marks_improved; auto; lia. }
  destruct (pass_A g n e) as [e' u']. simpl in Hp.
  destruct u'; [now apply IH | exact Hp].
Qed.

Lemma reached_marks_loop_B (k : nat) :
  forall i e,
    reached_marks n start e ->
    reached_marks n start (fst (loop_B g start n k i e)).
Proof.
  induction k as [|k IH]; intros i e He; simpl; [exact He|].
  assert (Hp : reached_marks n start (fst (pass_B g start n e))).
  { unfold pass_B.
    apply (fold_left_invariant (fun st => reached_marks n start (fst st)));
      [|exact He].
    intros [e' u'] [from to] Hin He'. apply in_pairs in Hin.
    unfold step_B. simpl in *.
    destruct (improves_B g start e' from to) eqn:Hi; simpl; [|exact He'].
    apply reached_marks_assign; auto; try lia.
    unfold improves_B in Hi.
    destruct (negb (from =? start)%nat && (prev e' from =? -1)%Z);
      [discriminate|].
    destruct (Qeq_bool (weight g from to) INF); [discriminate|].
    apply Qgtb_true in Hi.
    pose proof (reached_marks_below e' to He' (proj2 Hin)). lra. }
  destruct (pass_B g start n e) as [e' u']. simpl in Hp.
  destruct ((i =? n - 1)%nat && u'); [exact Hp | now apply IH].
Qed.

Lemma reached_marks_phase_C1 (e : BellmanFordAlgorithm) :
  reached_marks n start e -> reached_marks n start (phase_C1 g n e).
Proof.
  intros He. unfold phase_C1. apply iter_invariant; [|exact He].
  intros e' He'. apply fold_left_invariant; [|exact He'].
  intros e2 [from to] Hin He2. apply in_pairs in Hin. unfold step_C1.
  destruct (improves_edge g e2 from to) eqn:Hi; [|exact He2].
  unfold improves_edge in Hi. apply andb_true_iff in Hi.
  apply reached_marks_improved; tauto.
Qed.

Lemma reached_marks_phase_C2 (e : BellmanFordAlgorithm) :
  reached_marks n start e -> reached_marks n start (fst (phase_C2 g n e)).
Proof.
  intros He. unfold phase_C2.
  apply (iter_invariant (fun st => reached_marks n start (fst st)));
    [|exact He].
  intros st Hst.
  apply (fold_left_invariant (fun st => reached_marks n start (fst st)));
    [|exact Hst].
  intros [e' u] [from to] Hin He'. apply in_pairs in Hin.
  unfold step_C2. simpl in *.
  destruct (improves_edge g e' from to); simpl; [|exact He'].
  apply reached_marks_assign; auto; try lia. apply base_above_NEG_INF.
Qed.

Lemma reached_marks_loop_D (fuel : nat) :
  forall e q z inner e',
    reached_marks n start e ->
    loop_D fuel g n e q z inner = Stopped e' \/
    loop_D fuel g n e q z inner = Drained e' ->
    reached_marks n start e'.
Proof.
  induction fuel as [|fuel IH]; intros e q z inner e' He H; simpl in H.
  - destruct H; discriminate.
  - destruct q as [|from q]; simpl in H.
    + destruct inner; destruct H as [H|H]; try discriminate.
      now inversion H; subst.
    + destruct (from =? n)%nat.
      * destruct (n <? z)%nat; [|now apply IH in H].
        destruct H as [H|H]; [|discriminate]. now inversion H; subst.
      * assert (Hp : reached_marks n start
                       (fst (fold_left (step_D g from) (seq 0 n) (e, q)))).
        { apply (fold_left_invariant
                   (fun st => reached_marks n start (fst st))); [|exact He].
          intros [e2 q2] to Hin He2. apply in_seq in Hin.
          unfold step_D. simpl in *.
          destruct (Qeq_bool (weight g from to) INF); [exact He2|].
          destruct (Qgtb (dist e2 to) (dist e2 from + weight g from to))
            eqn:Hi; simpl; [|exact He2].
          apply reached_marks_improved; auto; lia. }
        destruct (fold_left (step_D g from) (seq 0 n) (e, q)) as [e1 q1].
        now apply IH in H.
Qed.

End ReachedMarks.

(** X23: after any strategy run on a fresh engine from a source below the
    node count, a node is unreached, predecessor -1, exactly when its
    distance is the one it started with (0 for the source, INF for any
    other node); a node with any other predecessor has a distance strictly
    below its starting one. *)
Theorem unreached_iff_untouched (fuel : nat) (s : Strategy) (g : Graph)
  (start v : nat) (e1 : BellmanFordAlgorithm) :
  (start < length (Nodes g))%nat ->
  (v < length (Nodes g))%nat ->
  run fuel s fresh g start = Returns e1 ->
  (prev e1 v = (-1)%Z <-> dist e1 v == base start v) /\
  (prev e1 v <> (-1)%Z -> dist e1 v < base start v).
Proof.
  intros Hs Hv Hr.
  assert (He : reached_marks (length (Nodes g)) start e1).
  { pose proof (reached_marks_init (length (Nodes g)) start) as Hi.
    destruct s; simpl in Hr.
    - inversion Hr; subst. unfold ContainsNegativeCycles.
      pose proof (reached_marks_relax_A g _ start (length (Nodes g) - 1)
                    _ false Hi) as H.
      destruct (relax_A _ _ _ _ _) as [e u]. simpl in H.
      destruct (u && _); exact H.
    - inversion Hr; subst. unfold ContainsNegativeCycles_Sedgewick.
      now apply reached_marks_loop_B.
    - inversion Hr; subst. unfold FindPathsAndNegativeCycles.
      pose proof (reached_marks_phase_C2 g _ start _
                    (reached_marks_phase_C1 g _ start _ Hi)) as H.
      destruct (phase_C2 _ _ _) as [e u]. exact H.
    - unfold FindPathOnly in Hr.
      destruct (loop_D _ _ _ _ _ _ _) as [| |e|e] eqn:Hl; try discriminate;
        inversion Hr; subst;
        eapply (reached_marks_loop_D g _ start); eauto. }
  destruct He as (_ & _ & H). unfold dist in *.
  destruct (H v Hv) as [[Hp Hd] | [Hp Hd]].
  - split; [split; intros _; [rewrite Hd; lra | exact Hp] | contradiction].
  - split; [split; [contradiction | intros E; lra] | intros _; exact Hd].
Qed.

Lemma unreached_iff_untouched_witness :
  let e1 := fst (ContainsNegativeCycles fresh graph_isolated3 0) in
  (0 < length (Nodes graph_isolated3))%nat /\
  (2 < length (Nodes graph_isolated3))%nat /\
  run 0 StrategyA fresh graph_isolated3 0 = Returns e1 /\
  (prev e1 2 = (-1)%Z <-> dist e1 2 == base 0 2) /\
  (prev e1 2 <> (-1)%Z -> dist e1 2 < base 0 2).
Proof.
  intros e1.
  assert (H1 : (0 < length (Nodes graph_isolated3))%nat) by (simpl; lia).
  assert (H2 : (2 < length (Nodes graph_isolated3))%nat) by (simpl; lia).
  assert (H3 : run 0 StrategyA fresh graph_isolated3 0 = Returns e1)
    by reflexivity.
  repeat (split; [assumption|]).
  exact (unreached_iff_untouched 0 StrategyA graph_isolated3 0 2 e1
           H1 H2 H3).
Defined.
